(** * IdeaField: the graph store, the camera, the force-layout hook and the
      canvas gestures, embedded from the TypeScript sources.

    Numbers.  A JavaScript [number] is modelled as a real number: every
    arithmetic operation of the sources is read as the exact operation on
    [R], so rounding, [NaN] and the infinities are outside the model.
    Strings are [string], optional fields ([T | undefined], [T | null])
    are [option T].

    Objects.  The layout hook keeps its physics objects in a [Map] keyed by
    node id and hands the very same objects to the simulation as an array.
    The model keeps one store [gmap string PhysicsNode.t] and lets the
    simulation hold the ids, so a write through the map is seen by the
    simulation and the other way round.  This identification of an object
    with its id is exact when the canonical ids are pairwise distinct, which
    is what [generateId] is there for. *)

From Stdlib Require Import Reals Lra Lia ZArith List.
From stdpp Require Import gmap strings list.

Open Scope R_scope.

(** ** Language builtins used by the sources *)

Module Js.

(** [a || d] on an optional number: [undefined] and [0] are falsy. *)
Definition or_num (a : option R) (d : R) : R :=
  match a with
  | Some v => if Req_dec_T v 0 then d else v
  | None => d
  end.

(** [a || d] on an optional string: [undefined] and the empty string are
    falsy. *)
Definition or_str (a : option string) (d : string) : string :=
  match a with
  | Some v => if decide (v = EmptyString) then d else v
  | None => d
  end.

(** [a || d] on an optional value that has no falsy inhabitant (here the
    status and edge-type tags, all of them non-empty strings). *)
Definition or_tag {A} (a : option A) (d : A) : A :=
  match a with Some v => v | None => d end.

(** [a ?? d]: only [undefined]/[null] give way to the default. *)
Definition nullish (a : option R) (d : R) : R :=
  match a with Some v => v | None => d end.

(** A string in a boolean position: [null] and the empty string are falsy. *)
Definition truthy_str (a : option string) : bool :=
  match a with
  | Some v => if decide (v = EmptyString) then false else true
  | None => false
  end.

(** [Math.floor]. *)
Definition floor (r : R) : Z := Int_part r.

(** [Math.atan2 y x]: the angle of the point [(x, y)], in (-PI, PI]. *)
Definition atan2 (y x : R) : R :=
  if Rlt_dec 0 x then atan (y / x)
  else if Rlt_dec x 0 then
    (if Rle_dec 0 y then atan (y / x) + PI else atan (y / x) - PI)
  else if Rlt_dec 0 y then PI / 2
  else if Rlt_dec y 0 then - (PI / 2)
  else 0.

End Js.

(** ** types/index.ts *)

Inductive NodeStatus := SEED | SPROUT | FLOWERING | FRUIT.

Inductive EdgeType := DERIVE | IMPLEMENT.

#[global] Instance NodeStatus_eq_dec : EqDecision NodeStatus.
Proof. solve_decision. Defined.

Module IdeaNode.
Record t := mk {
  id : string;
  parentId : option string;
  text : string;
  status : NodeStatus;
  x : R;
  y : R;
  radius : R;
  energy : R;
  color : string;
  createdAt : R
}.
End IdeaNode.

Module IdeaEdge.
Record t := mk {
  id : string;
  sourceId : string;
  targetId : string;
  type : EdgeType
}.
End IdeaEdge.

Module CameraState.
Record t := mk { scale : R; offsetX : R; offsetY : R }.
End CameraState.

Module DragSpawnState.
Record t := mk {
  isDragging : bool;
  sourceNodeId : option string;
  startX : R;
  startY : R;
  currentX : R;
  currentY : R
}.
End DragSpawnState.

(** [Object.values(NODE_COLORS)], in declaration order. *)
Definition NODE_COLORS : list string :=
  [ "#6B30FF"; "#452F8F"; "#A78BFF"; "#2895F7";
    "#00C853"; "#00BCD4"; "#E91E63"; "#FF9800" ]%string.

Module PHYSICS_CONFIG.
Module forceManyBody.
Definition strength : R := -400.
Definition distanceMin : R := 20.
Definition distanceMax : R := 600.
End forceManyBody.
Module forceLink.
Definition distance : R := 180.
Definition strength : R := 3 / 10.
End forceLink.
Module forceCollide.
Definition padding : R := 15.
Definition strength : R := 8 / 10.
Definition iterations : nat := 3.
End forceCollide.
Module forceCenter.
Definition strength : R := 3 / 100.
End forceCenter.
Module alpha.
Definition start : R := 1.
Definition min : R := 1 / 1000.
Definition decay : R := 2 / 100.
End alpha.
End PHYSICS_CONFIG.

(** ** hooks/useIdeaStore.ts *)

(** What an action reads from the outside world: the clock and the random
    generator.  [stamp] is the text [generateId] interpolates after the
    prefix (the timestamp, an underscore and the base-36 random suffix),
    [random] is the value of [Math.random()] in [getRandomColor], [now] is
    [Date.now()]. *)
Record Env := mkEnv { stamp : string; random : R; now : R }.

Definition generateId (env : Env) : string := ("node_" ++ stamp env)%string.

(** [colors[Math.floor(Math.random() * colors.length)]]; an index outside
    the array reads [undefined]. *)
Definition getRandomColor (env : Env) : option string :=
  let colors := NODE_COLORS in
  match Js.floor (random env * INR (length colors)) with
  | Zneg _ => None
  | k => nth_error colors (Z.to_nat k)
  end.

(** The argument of [addNode]:
    [Partial<IdeaNode> & { x: number; y: number; text: string }]
    (the fields [addNode] reads). *)
Module NodeData.
Record t := mk {
  text : string;
  x : R;
  y : R;
  status : option NodeStatus;
  radius : option R;
  energy : option R;
  color : option string;
  parentId : option string
}.
End NodeData.

(** [Partial<IdeaNode>], the argument of [updateNode].  [None] is a key
    that the object does not have.  [parentId] is optional in [IdeaNode], so
    its key can also be there with the value [undefined], which the spread
    of [updateNode] copies like any other value: [Some None].  For the other
    fields a key holding [undefined] would put [undefined] into a field
    that [IdeaNode] declares defined; such an update leaves [IdeaNode.t]
    and has no representation here. *)
Module NodeUpdates.
Record t := mk {
  id : option string;
  parentId : option (option string);
  text : option string;
  status : option NodeStatus;
  x : option R;
  y : option R;
  radius : option R;
  energy : option R;
  color : option string;
  createdAt : option R
}.
Definition none : t := mk None None None None None None None None None None.
End NodeUpdates.

(** [Omit<IdeaEdge, 'id'>], the argument of [addEdge]; [type] is read
    through [||]. *)
Module EdgeData.
Record t := mk { sourceId : string; targetId : string; type : option EdgeType }.
End EdgeData.

Module SpawnResult.
Record t := mk { x : R; y : R; sourceNodeId : string }.
End SpawnResult.

Record IdeaState := mkState {
  nodes : list IdeaNode.t;
  edges : list IdeaEdge.t;
  camera : CameraState.t;
  dragSpawn : DragSpawnState.t;
  selectedNodeId : option string;
  editingNodeId : option string;
  canvasWidth : R;
  canvasHeight : R
}.

(** zustand's [set] merges the fields it is given into the state; one
    setter per field that the actions write. *)
Definition set_nodes (v : list IdeaNode.t) (s : IdeaState) : IdeaState :=
  mkState v (edges s) (camera s) (dragSpawn s) (selectedNodeId s)
          (editingNodeId s) (canvasWidth s) (canvasHeight s).
Definition set_edges (v : list IdeaEdge.t) (s : IdeaState) : IdeaState :=
  mkState (nodes s) v (camera s) (dragSpawn s) (selectedNodeId s)
          (editingNodeId s) (canvasWidth s) (canvasHeight s).
Definition set_camera (v : CameraState.t) (s : IdeaState) : IdeaState :=
  mkState (nodes s) (edges s) v (dragSpawn s) (selectedNodeId s)
          (editingNodeId s) (canvasWidth s) (canvasHeight s).
Definition set_dragSpawn (v : DragSpawnState.t) (s : IdeaState) : IdeaState :=
  mkState (nodes s) (edges s) (camera s) v (selectedNodeId s)
          (editingNodeId s) (canvasWidth s) (canvasHeight s).
Definition set_selectedNodeId (v : option string) (s : IdeaState) : IdeaState :=
  mkState (nodes s) (edges s) (camera s) (dragSpawn s) v
          (editingNodeId s) (canvasWidth s) (canvasHeight s).

Definition initialDragSpawn : DragSpawnState.t :=
  DragSpawnState.mk false None 0 0 0 0.

Definition initialState (innerWidth innerHeight : R) : IdeaState :=
  mkState [] [] (CameraState.mk 1 0 0) initialDragSpawn None None
          innerWidth innerHeight.

(** [addNode]: returns the new id and the new state.  When
    [getRandomColor] reads past the array the colour is [undefined]; the
    model then stores the empty string. *)
Definition addNode (env : Env) (nodeData : NodeData.t) (s : IdeaState)
  : string * IdeaState :=
  let id := generateId env in
  let newNode :=
    IdeaNode.mk id
      (NodeData.parentId nodeData)
      (NodeData.text nodeData)
      (Js.or_tag (NodeData.status nodeData) SEED)
      (NodeData.x nodeData)
      (NodeData.y nodeData)
      (Js.or_num (NodeData.radius nodeData) 35)
      (Js.or_num (NodeData.energy nodeData) (1 / 2))
      (Js.or_str (NodeData.color nodeData)
                 (default EmptyString (getRandomColor env)))
      (now env) in
  (id, set_nodes (nodes s ++ [newNode]) s).

(** [{ ...node, ...updates }]: every key that [updates] has replaces the
    node's, also [parentId] holding [undefined]. *)
Definition mergeNode (node : IdeaNode.t) (u : NodeUpdates.t) : IdeaNode.t :=
  IdeaNode.mk
    (default (IdeaNode.id node) (NodeUpdates.id u))
    (default (IdeaNode.parentId node) (NodeUpdates.parentId u))
    (default (IdeaNode.text node) (NodeUpdates.text u))
    (default (IdeaNode.status node) (NodeUpdates.status u))
    (default (IdeaNode.x node) (NodeUpdates.x u))
    (default (IdeaNode.y node) (NodeUpdates.y u))
    (default (IdeaNode.radius node) (NodeUpdates.radius u))
    (default (IdeaNode.energy node) (NodeUpdates.energy u))
    (default (IdeaNode.color node) (NodeUpdates.color u))
    (default (IdeaNode.createdAt node) (NodeUpdates.createdAt u)).

Definition updateNode (id : string) (updates : NodeUpdates.t) (s : IdeaState)
  : IdeaState :=
  set_nodes
    (map (fun node =>
            if decide (IdeaNode.id node = id) then mergeNode node updates
            else node)
         (nodes s)) s.

Definition removeNode (id : string) (s : IdeaState) : IdeaState :=
  mkState
    (filter (fun node => IdeaNode.id node <> id) (nodes s))
    (filter (fun edge => IdeaEdge.sourceId edge <> id
                         /\ IdeaEdge.targetId edge <> id) (edges s))
    (camera s)
    (dragSpawn s)
    (if decide (selectedNodeId s = Some id) then None else selectedNodeId s)
    (editingNodeId s)
    (canvasWidth s)
    (canvasHeight s).

Definition addEdge (env : Env) (edgeData : EdgeData.t) (s : IdeaState)
  : string * IdeaState :=
  let id := generateId env in
  let newEdge :=
    IdeaEdge.mk id (EdgeData.sourceId edgeData) (EdgeData.targetId edgeData)
                (Js.or_tag (EdgeData.type edgeData) DERIVE) in
  (id, set_edges (edges s ++ [newEdge]) s).

Definition removeEdge (id : string) (s : IdeaState) : IdeaState :=
  set_edges (filter (fun edge => IdeaEdge.id edge <> id) (edges s)) s.

Definition pan (dx dy : R) (s : IdeaState) : IdeaState :=
  set_camera
    (CameraState.mk (CameraState.scale (camera s))
                    (CameraState.offsetX (camera s) + dx)
                    (CameraState.offsetY (camera s) + dy)) s.

Definition zoom (factor : R) (centerX centerY : option R) (s : IdeaState)
  : IdeaState :=
  let cam := camera s in
  let cx := Js.nullish centerX (canvasWidth s / 2) in
  let cy := Js.nullish centerY (canvasHeight s / 2) in
  let newScale := Rmax (1 / 10) (Rmin 5 (CameraState.scale cam * factor)) in
  let scaleRatio := newScale / CameraState.scale cam in
  let newOffsetX := cx - (cx - CameraState.offsetX cam) * scaleRatio in
  let newOffsetY := cy - (cy - CameraState.offsetY cam) * scaleRatio in
  set_camera (CameraState.mk newScale newOffsetX newOffsetY) s.

Definition resetCamera (s : IdeaState) : IdeaState :=
  set_camera (CameraState.mk 1 0 0) s.

Definition startDragSpawn (sourceNodeId : string) (startX startY : R)
  (s : IdeaState) : IdeaState :=
  set_dragSpawn
    (DragSpawnState.mk true (Some sourceNodeId) startX startY startX startY) s.

Definition updateDragSpawn (currentX currentY : R) (s : IdeaState)
  : IdeaState :=
  let d := dragSpawn s in
  set_dragSpawn
    (DragSpawnState.mk (DragSpawnState.isDragging d)
                       (DragSpawnState.sourceNodeId d)
                       (DragSpawnState.startX d) (DragSpawnState.startY d)
                       currentX currentY) s.

(** [endDragSpawn]: the returned value ([null] is [None]) and the state it
    leaves. *)
Definition endDragSpawn (s : IdeaState)
  : option SpawnResult.t * IdeaState :=
  let d := dragSpawn s in
  if negb (DragSpawnState.isDragging d)
     || negb (Js.truthy_str (DragSpawnState.sourceNodeId d))
  then (None, s)
  else
    match DragSpawnState.sourceNodeId d with
    | Some src =>
        (Some (SpawnResult.mk (DragSpawnState.currentX d)
                              (DragSpawnState.currentY d) src),
         set_dragSpawn initialDragSpawn s)
    | None => (None, s) (* not reached: [null] is falsy *)
    end.

Definition cancelDragSpawn (s : IdeaState) : IdeaState :=
  set_dragSpawn initialDragSpawn s.

Definition selectNode (id : option string) (s : IdeaState) : IdeaState :=
  set_selectedNodeId id s.

Definition initializeWithRoot (env : Env) (s : IdeaState) : IdeaState :=
  match nodes s with
  | [] =>
      let rootNode :=
        IdeaNode.mk (generateId env) None "核心想法"
                    FLOWERING (canvasWidth s / 2) (canvasHeight s / 2)
                    45 (8 / 10) "#6B30FF" (now env) in
      set_edges [] (set_nodes [rootNode] s)
  | _ => s
  end.

(** ** utils/bezier.ts *)

Definition getEdgePoint (fromX fromY fromRadius toX toY : R) : R * R :=
  let angle := Js.atan2 (toY - fromY) (toX - fromX) in
  (fromX + cos angle * fromRadius, fromY + sin angle * fromRadius).

(** ** hooks/usePhysicsSimulation.ts *)

Module PhysicsNode.
Record t := mk {
  id : string;
  x : R;
  y : R;
  vx : R;
  vy : R;
  radius : R;
  fx : option R;
  fy : option R
}.
End PhysicsNode.

Module PhysicsEdge.
Record t := mk { source : string; target : string }.
End PhysicsEdge.

(** The hook's arguments that the effect depends on ([onNodeUpdate] only
    feeds the tick listener and is left out). *)
Module Props.
Record t := mk {
  nodes : list IdeaNode.t;
  edges : list IdeaEdge.t;
  canvasWidth : R;
  canvasHeight : R;
  enabled : bool
}.
End Props.

(** The part of the d3 simulation object that the hook configures and
    reads back: its node array (as ids into the store), the links of the
    link force, the target of the centering force, [alpha], and whether its
    internal timer is running. *)
Module Simulation.
Record t := mk {
  nodes : list string;
  links : list PhysicsEdge.t;
  center : R * R;
  alpha : R;
  timer : bool
}.
Definition stop (sim : t) : t :=
  mk (nodes sim) (links sim) (center sim) (alpha sim) false.
Definition restart (sim : t) : t :=
  mk (nodes sim) (links sim) (center sim) (alpha sim) true.
Definition set_alpha (a : R) (sim : t) : t :=
  mk (nodes sim) (links sim) (center sim) a (timer sim).
End Simulation.

(** The three refs of the hook. *)
Record Engine := mkEngine {
  simulationRef : option Simulation.t;
  nodesRef : gmap string PhysicsNode.t;
  isRunningRef : bool
}.

Definition emptyEngine : Engine := mkEngine None ∅ false.

Definition set_nodesRef (m : gmap string PhysicsNode.t) (e : Engine) : Engine :=
  mkEngine (simulationRef e) m (isRunningRef e).

(** The link force resolves the endpoints of every link it is given
    against the simulation's nodes, by id, and throws
    ("node not found") on an id that no node carries.  [None] is the
    exception. *)
Module D3.
Definition find (nodeById : list string) (nodeId : string) : option string :=
  if decide (nodeId ∈ nodeById) then Some nodeId else None.

Definition resolveLink (nodeById : list string) (link : PhysicsEdge.t)
  : option PhysicsEdge.t :=
  source ← find nodeById (PhysicsEdge.source link);
  target ← find nodeById (PhysicsEdge.target link);
  Some (PhysicsEdge.mk source target).

Definition linkInitialize (nodes : list string) (links : list PhysicsEdge.t)
  : option (list PhysicsEdge.t) :=
  mapM (resolveLink nodes) links.
End D3.

(** [node.status === 'fruit' ? v : null] *)
Definition fruitLock (node : IdeaNode.t) (v : R) : option R :=
  if decide (IdeaNode.status node = FRUIT) then Some v else None.

Definition convertToPhysicsNode (node : IdeaNode.t) : PhysicsNode.t :=
  PhysicsNode.mk (IdeaNode.id node) (IdeaNode.x node) (IdeaNode.y node) 0 0
                 (IdeaNode.radius node)
                 (fruitLock node (IdeaNode.x node))
                 (fruitLock node (IdeaNode.y node)).

(** The assignments made to an object found in the old map. *)
Definition updateExisting (existingNode : PhysicsNode.t) (node : IdeaNode.t)
  : PhysicsNode.t :=
  PhysicsNode.mk (PhysicsNode.id existingNode)
                 (IdeaNode.x node) (IdeaNode.y node)
                 (PhysicsNode.vx existingNode) (PhysicsNode.vy existingNode)
                 (IdeaNode.radius node)
                 (fruitLock node (IdeaNode.x node))
                 (fruitLock node (IdeaNode.y node)).

(** The object that one round of [nodes.forEach] stores for [node]: the
    one found in the old map ([nodesRef.current]), updated, or a new one. *)
Definition reconcileObject (old : gmap string PhysicsNode.t)
  (node : IdeaNode.t) : PhysicsNode.t :=
  match old !! IdeaNode.id node with
  | Some existingNode => updateExisting existingNode node
  | None => convertToPhysicsNode node
  end.

(** One round of [nodes.forEach]: the writes go to [newNodesMap] and
    [physicsNodes]. *)
Definition reconcileStep (old : gmap string PhysicsNode.t)
  (acc : gmap string PhysicsNode.t * list string) (node : IdeaNode.t)
  : gmap string PhysicsNode.t * list string :=
  (<[IdeaNode.id node := reconcileObject old node]> (fst acc),
   snd acc ++ [IdeaNode.id node]).

Definition reconcileNodes (old : gmap string PhysicsNode.t)
  (nodes : list IdeaNode.t) : gmap string PhysicsNode.t * list string :=
  foldl (reconcileStep old) (∅, []) nodes.

Definition edgeExists (newNodesMap : gmap string PhysicsNode.t)
  (edge : IdeaEdge.t) : Prop :=
  is_Some (newNodesMap !! IdeaEdge.sourceId edge)
  /\ is_Some (newNodesMap !! IdeaEdge.targetId edge).

#[global] Instance edgeExists_dec m edge : Decision (edgeExists m edge).
Proof. unfold edgeExists. apply _. Defined.

(** [{ source: edge.sourceId, target: edge.targetId }] *)
Definition toPhysicsEdge (edge : IdeaEdge.t) : PhysicsEdge.t :=
  PhysicsEdge.mk (IdeaEdge.sourceId edge) (IdeaEdge.targetId edge).

Definition physicsEdgesOf (newNodesMap : gmap string PhysicsNode.t)
  (edges : list IdeaEdge.t) : list PhysicsEdge.t :=
  map toPhysicsEdge (filter (edgeExists newNodesMap) edges).

(** [simulationRef.current.stop(); isRunningRef.current = false], guarded by
    the simulation being there: the disabled branch of the effect, its
    clean-up function, and [pause]. *)
Definition stop (e : Engine) : Engine :=
  match simulationRef e with
  | Some sim => mkEngine (Some (Simulation.stop sim)) (nodesRef e) false
  | None => e
  end.

Definition cleanup : Engine -> Engine := stop.
Definition pause : Engine -> Engine := stop.

(** The body of the effect.  Creating a simulation starts its timer. *)
Definition effect (props : Props.t) (e : Engine) : option Engine :=
  if negb (Props.enabled props) then Some (stop e)
  else
    let r := reconcileNodes (nodesRef e) (Props.nodes props) in
    let newNodesMap := fst r in
    let physicsNodes := snd r in
    let physicsEdges := physicsEdgesOf newNodesMap (Props.edges props) in
    let center := (Props.canvasWidth props / 2, Props.canvasHeight props / 2) in
    links ← D3.linkInitialize physicsNodes physicsEdges;
    match simulationRef e with
    | None =>
        Some (mkEngine
                (Some (Simulation.mk physicsNodes links center
                                     PHYSICS_CONFIG.alpha.start true))
                newNodesMap true)
    | Some sim =>
        Some (mkEngine
                (Some (Simulation.mk physicsNodes links center
                         PHYSICS_CONFIG.alpha.start
                         (if isRunningRef e then Simulation.timer sim
                          else true)))
                newNodesMap true)
    end.

(** A change of the effect's dependencies: React runs the clean-up of the
    previous run, then the effect with the new arguments.  (On the first
    run there is no simulation yet and the clean-up has nothing to do.) *)
Definition rerun (props : Props.t) (e : Engine) : option Engine :=
  effect props (cleanup e).

Definition resume (enabled : bool) (e : Engine) : Engine :=
  match simulationRef e with
  | Some sim =>
      if enabled
      then mkEngine (Some (Simulation.restart sim)) (nodesRef e) true
      else e
  | None => e
  end.

Definition reheat (e : Engine) : Engine :=
  match simulationRef e with
  | Some sim =>
      let sim1 := Simulation.set_alpha PHYSICS_CONFIG.alpha.start sim in
      if isRunningRef e
      then mkEngine (Some sim1) (nodesRef e) (isRunningRef e)
      else mkEngine (Some (Simulation.restart sim1)) (nodesRef e) true
  | None => e
  end.

Definition setNodeVelocity (nodeId : string) (vx vy : R) (e : Engine)
  : Engine :=
  match nodesRef e !! nodeId, simulationRef e with
  | Some node, Some _ =>
      let node' :=
        PhysicsNode.mk (PhysicsNode.id node) (PhysicsNode.x node)
                       (PhysicsNode.y node) vx vy (PhysicsNode.radius node)
                       (PhysicsNode.fx node) (PhysicsNode.fy node) in
      reheat (set_nodesRef (<[nodeId := node']> (nodesRef e)) e)
  | _, _ => e
  end.

Definition setNodePosition (nodeId : string) (x y : R) (e : Engine)
  : Engine :=
  match nodesRef e !! nodeId, simulationRef e with
  | Some node, Some _ =>
      let node' :=
        PhysicsNode.mk (PhysicsNode.id node) x y 0 0
                       (PhysicsNode.radius node)
                       (PhysicsNode.fx node) (PhysicsNode.fy node) in
      set_nodesRef (<[nodeId := node']> (nodesRef e)) e
  | _, _ => e
  end.

(** ** The simulation step *)

Section Step.

(** Steps 1-3 of the per-tick algorithm (repulsion, springs along the
    links, collision) as the force they contribute to one node, given
    [alpha], the links and all the nodes.  The step is stated for any
    such contribution. *)
Variable pairForces :
  R -> list PhysicsEdge.t -> list PhysicsNode.t -> PhysicsNode.t -> R * R.

(** Modelled from the spec: the centering force of the d3-force package,
    which is not among the sources.  Step 4 of section 4.2: a weak force
    pulling a node toward the viewport center, scaled by [alpha]. *)
Definition centering (center : R * R) (alpha : R) (n : PhysicsNode.t)
  : R * R :=
  ((fst center - PhysicsNode.x n)
     * PHYSICS_CONFIG.forceCenter.strength * alpha,
   (snd center - PhysicsNode.y n)
     * PHYSICS_CONFIG.forceCenter.strength * alpha).

Definition netForce (sim : Simulation.t) (objs : list PhysicsNode.t)
  (n : PhysicsNode.t) : R * R :=
  let p := pairForces (Simulation.alpha sim) (Simulation.links sim) objs n in
  let c := centering (Simulation.center sim) (Simulation.alpha sim) n in
  (fst p + fst c, snd p + snd c).

(** Modelled from the spec: the integration of the d3-force package, which
    is not among the sources.  Step 5 of section 4.2, one axis:
    [velocity += netForce; position += velocity], and a pinned coordinate
    is held at the pinned value with zero velocity. *)
Definition integrateAxis (pin : option R) (pos vel force : R) : R * R :=
  match pin with
  | Some p => (p, 0)
  | None => (pos + (vel + force), vel + force)
  end.

Definition integrate (f : R * R) (n : PhysicsNode.t) : PhysicsNode.t :=
  let ax := integrateAxis (PhysicsNode.fx n) (PhysicsNode.x n)
                          (PhysicsNode.vx n) (fst f) in
  let ay := integrateAxis (PhysicsNode.fy n) (PhysicsNode.y n)
                          (PhysicsNode.vy n) (snd f) in
  PhysicsNode.mk (PhysicsNode.id n) (fst ax) (fst ay) (snd ax) (snd ay)
                 (PhysicsNode.radius n)
                 (PhysicsNode.fx n) (PhysicsNode.fy n).

(** Modelled from the spec: the energy decay of the d3-force package,
    which is not among the sources.  Step 6 of section 4.2:
    [alpha *= (1 - alphaDecay)], clamped to [alphaMin] from below. *)
Definition decayAlpha (alpha : R) : R :=
  let a := alpha * (1 - PHYSICS_CONFIG.alpha.decay) in
  if Rlt_dec a PHYSICS_CONFIG.alpha.min then PHYSICS_CONFIG.alpha.min else a.

(** Modelled from the spec: the simulation step of the d3-force package,
    which is not among the sources.  Section 4.2: the forces are taken on
    the nodes as they stand at the start of the step, every node of the
    simulation is integrated, [alpha] decays, and on reaching [alphaMin]
    the engine stops scheduling ticks.  The objects are the ones in the
    store, so the store sees the new positions. *)
Definition tick (e : Engine) : Engine :=
  match simulationRef e with
  | None => e
  | Some sim =>
      let objs := omap (fun i => nodesRef e !! i) (Simulation.nodes sim) in
      let move := fun n => integrate (netForce sim objs n) n in
      let store' :=
        foldl (fun m i => alter move i m) (nodesRef e) (Simulation.nodes sim) in
      let a := Simulation.alpha sim * (1 - PHYSICS_CONFIG.alpha.decay) in
      let cooled := if Rlt_dec a PHYSICS_CONFIG.alpha.min then true else false in
      mkEngine
        (Some (Simulation.mk (Simulation.nodes sim) (Simulation.links sim)
                 (Simulation.center sim)
                 (decayAlpha (Simulation.alpha sim))
                 (if cooled then false else Simulation.timer sim)))
        store' (isRunningRef e)
  end.

(** What can happen to the engine between two runs of the effect: a step
    of the simulation, or a call of one of the functions the hook
    returns. *)
Inductive Call :=
| Tick
| SetNodePosition (nodeId : string) (x y : R)
| SetNodeVelocity (nodeId : string) (vx vy : R)
| Reheat
| Pause
| Resume (enabled : bool).

Definition call (e : Engine) (c : Call) : Engine :=
  match c with
  | Tick => tick e
  | SetNodePosition nodeId x y => setNodePosition nodeId x y e
  | SetNodeVelocity nodeId vx vy => setNodeVelocity nodeId vx vy e
  | Reheat => reheat e
  | Pause => pause e
  | Resume enabled => resume enabled e
  end.

Definition run (e : Engine) (cs : list Call) : Engine := foldl call e cs.

End Step.

(** [alpha] after [n] steps from [alphaStart], with no reheat in between. *)
Definition alphaAfter (n : nat) : R :=
  Nat.iter n decayAlpha PHYSICS_CONFIG.alpha.start.

(** The calls that leave [alpha] alone.  [reheat] sets it back to
    [alphaStart], and [setNodeVelocity] calls [reheat]. *)
Definition keepsAlpha (c : Call) : bool :=
  match c with
  | Tick | SetNodePosition _ _ _ | Pause | Resume _ => true
  | SetNodeVelocity _ _ _ | Reheat => false
  end.

(** The number of steps among the calls. *)
Fixpoint ticksIn (cs : list Call) : nat :=
  match cs with
  | [] => 0
  | Tick :: cs => S (ticksIn cs)
  | _ :: cs => ticksIn cs
  end.

(** ** The canvas component (IdeaCanvas) *)

Record Canvas := mkCanvas {
  store : IdeaState;
  physics : Engine;
  isPanning : bool;
  lastPanPoint : R * R;
  isSpacePressed : bool
}.

Definition screenToWorld (cam : CameraState.t) (screenX screenY : R) : R * R :=
  ((screenX - CameraState.offsetX cam) / CameraState.scale cam,
   (screenY - CameraState.offsetY cam) / CameraState.scale cam).

(** The transform the [Stage] is drawn with: [scaleX = scaleY = camera.scale],
    [x = camera.offsetX], [y = camera.offsetY]. *)
Definition stageToScreen (cam : CameraState.t) (worldX worldY : R) : R * R :=
  (worldX * CameraState.scale cam + CameraState.offsetX cam,
   worldY * CameraState.scale cam + CameraState.offsetY cam).

(** [button] is [e.evt.button]; [pos] the pointer position on the stage. *)
Definition handleMouseDown (button : Z) (pos : R * R) (c : Canvas) : Canvas :=
  if isSpacePressed c || bool_decide (button = 1%Z)
  then mkCanvas (store c) (physics c) true pos (isSpacePressed c)
  else c.

Definition handleMouseMove (pos : R * R) (c : Canvas) : Canvas :=
  if isPanning c then
    let dx := fst pos - fst (lastPanPoint c) in
    let dy := snd pos - snd (lastPanPoint c) in
    mkCanvas (pan dx dy (store c)) (physics c) (isPanning c) pos
             (isSpacePressed c)
  else if DragSpawnState.isDragging (dragSpawn (store c)) then
    let worldPos := screenToWorld (camera (store c)) (fst pos) (snd pos) in
    mkCanvas (updateDragSpawn (fst worldPos) (snd worldPos) (store c))
             (physics c) (isPanning c) (lastPanPoint c) (isSpacePressed c)
  else c.

(** The node and the edge that a finished spawn gesture creates; the two
    [generateId] calls read the outside world one after the other. *)
Definition spawnNodeData (result : SpawnResult.t) : NodeData.t :=
  NodeData.mk "新想法" (SpawnResult.x result) (SpawnResult.y result)
              (Some SEED) (Some 30) (Some (5 / 10)) None
              (Some (SpawnResult.sourceNodeId result)).

Definition handleMouseUp (envNode envEdge : Env) (c : Canvas) : Canvas :=
  if isPanning c then
    mkCanvas (store c) (physics c) false (lastPanPoint c) (isSpacePressed c)
  else if DragSpawnState.isDragging (dragSpawn (store c)) then
    match endDragSpawn (store c) with
    | (Some result, s1) =>
        let (newNodeId, s2) := addNode envNode (spawnNodeData result) s1 in
        let (_, s3) :=
          addEdge envEdge
            (EdgeData.mk (SpawnResult.sourceNodeId result) newNodeId
                         (Some DERIVE)) s2 in
        mkCanvas s3 (reheat (physics c)) (isPanning c) (lastPanPoint c)
                 (isSpacePressed c)
    | (None, s1) =>
        mkCanvas s1 (physics c) (isPanning c) (lastPanPoint c)
                 (isSpacePressed c)
    end
  else c.

Definition handleWheel (deltaY : R) (pos : R * R) (c : Canvas) : Canvas :=
  let scaleFactor := if Rlt_dec 0 deltaY then 9 / 10 else 11 / 10 in
  mkCanvas (zoom scaleFactor (Some (fst pos)) (Some (snd pos)) (store c))
           (physics c) (isPanning c) (lastPanPoint c) (isSpacePressed c).

Definition positionUpdate (x y : R) : NodeUpdates.t :=
  NodeUpdates.mk None None None None (Some x) (Some y) None None None None.

Definition handleNodeDragMove (nodeId : string) (x y : R) (c : Canvas)
  : Canvas :=
  mkCanvas (updateNode nodeId (positionUpdate x y) (store c))
           (setNodePosition nodeId x y (physics c))
           (isPanning c) (lastPanPoint c) (isSpacePressed c).

Definition handleNodeDragEnd (c : Canvas) : Canvas :=
  mkCanvas (store c) (reheat (physics c)) (isPanning c) (lastPanPoint c)
           (isSpacePressed c).

Definition handleNodeSpawnStart (nodeId : string) (x y : R) (c : Canvas)
  : Canvas :=
  mkCanvas (startDragSpawn nodeId x y (store c)) (physics c) (isPanning c)
           (lastPanPoint c) (isSpacePressed c).

(** ** Notions of the specification *)

(** [clamp(v, lo, hi)] as the specification uses it for the camera scale. *)
Definition clamp (v lo hi : R) : R :=
  if Rlt_dec v lo then lo else if Rlt_dec hi v then hi else v.

(** The pivot of a zoom: the given screen point, or the viewport center
    when none is given. *)
Definition pivotOf (centerX centerY : option R) (s : IdeaState) : R * R :=
  (match centerX with Some v => v | None => canvasWidth s / 2 end,
   match centerY with Some v => v | None => canvasHeight s / 2 end).

(** The pointer moves of a gesture, in order, as the stage reports them
    (screen points). *)
Definition pointerMoves (moves : list (R * R)) (c : Canvas) : Canvas :=
  foldl (fun c pos => handleMouseMove pos c) c moves.

(** The current world point of a spawn gesture at release: the point of the
    last pointer move, or the start point when the pointer never moved. *)
Definition releasePoint (cam : CameraState.t) (start : R * R)
  (moves : list (R * R)) : R * R :=
  match last moves with
  | Some pos => screenToWorld cam (fst pos) (snd pos)
  | None => start
  end.

(** The canvas while a spawn gesture from [A] is under way: not panning,
    the graph and the camera as they were in [c0], the spawn state active
    from [A] with the given start and current points. *)
Definition spawning (c0 : Canvas) (A : string) (start current : R * R)
  (c : Canvas) : Prop :=
  isPanning c = false
  /\ nodes (store c) = nodes (store c0)
  /\ edges (store c) = edges (store c0)
  /\ camera (store c) = camera (store c0)
  /\ dragSpawn (store c) =
       DragSpawnState.mk true (Some A) (fst start) (snd start)
                         (fst current) (snd current).

(** An edge is anchored when both its endpoints are ids of canonical nodes,
    and dangling otherwise. *)
Definition anchored (nodes : list IdeaNode.t) (edge : IdeaEdge.t) : Prop :=
  IdeaEdge.sourceId edge ∈ map IdeaNode.id nodes
  /\ IdeaEdge.targetId edge ∈ map IdeaNode.id nodes.

#[global] Instance anchored_dec nodes edge : Decision (anchored nodes edge).
Proof. unfold anchored. apply _. Defined.

Definition dangling (nodes : list IdeaNode.t) (edge : IdeaEdge.t) : Prop :=
  IdeaEdge.sourceId edge ∉ map IdeaNode.id nodes
  \/ IdeaEdge.targetId edge ∉ map IdeaNode.id nodes.

(** The edge set with its dangling edges deleted. *)
Definition withoutDangling (nodes : list IdeaNode.t) (edges : list IdeaEdge.t)
  : list IdeaEdge.t :=
  filter (anchored nodes) edges.

(** The same arguments with another edge set. *)
Definition withEdges (edges : list IdeaEdge.t) (props : Props.t) : Props.t :=
  Props.mk (Props.nodes props) edges (Props.canvasWidth props)
           (Props.canvasHeight props) (Props.enabled props).

(** A physics object is pinned at a point when its lock fields hold that
    point, and held there when moreover it sits at the point, at rest. *)
Definition pinnedAt (px py : R) (n : PhysicsNode.t) : Prop :=
  PhysicsNode.fx n = Some px /\ PhysicsNode.fy n = Some py.

Definition heldAt (px py : R) (n : PhysicsNode.t) : Prop :=
  pinnedAt px py n
  /\ PhysicsNode.x n = px /\ PhysicsNode.y n = py
  /\ PhysicsNode.vx n = 0 /\ PhysicsNode.vy n = 0.

(** The engine simulates the object of id [i], and that object satisfies
    [P]. *)
Definition simulated (P : PhysicsNode.t -> Prop) (i : string) (e : Engine)
  : Prop :=
  exists sim n,
    simulationRef e = Some sim
    /\ i ∈ Simulation.nodes sim
    /\ nodesRef e !! i = Some n
    /\ P n.

(** Steps 1-3 of the step in a simulation of a single node: there is no
    pair and no link for them to act on. *)
Definition noPairForces
  : R -> list PhysicsEdge.t -> list PhysicsNode.t -> PhysicsNode.t -> R * R :=
  fun _ _ _ _ => (0, 0).

(** An outside world to run the examples in. *)
Definition sampleEnv : Env :=
  mkEnv "1700000000000_k3j9x2m1q" (1 / 2) 1700000000000.

Definition sampleProps (nodes : list IdeaNode.t) (edges : list IdeaEdge.t)
  : Props.t :=
  Props.mk nodes edges 800 600 true.

Definition seedNode : IdeaNode.t :=
  IdeaNode.mk "node_a" None "a" SEED 0 0 30 (1 / 2) "#6B30FF" 0.

Definition fruitNode : IdeaNode.t :=
  IdeaNode.mk "node_b" None "b" FRUIT 100 50 30 (1 / 2) "#FF9800" 0.

(** An engine whose object for [seedNode] has moved away from the
    canonical position (0, 0) and carries a velocity. *)
Definition driftedObject : PhysicsNode.t :=
  PhysicsNode.mk "node_a" 1 2 3 4 30 None None.

Definition driftedEngine : Engine :=
  mkEngine (Some (Simulation.mk ["node_a"%string] [] (400, 300) 1 true))
           {[ "node_a"%string := driftedObject ]} true.

(** ** More of the sources *)

(** *** hooks/useIdeaStore.ts: sequences of camera actions *)

(** The camera actions of the store, to speak of sequences of them. *)
Inductive CameraAction :=
| Pan (dx dy : R)
| Zoom (factor : R) (centerX centerY : option R)
| ResetCamera.

Definition cameraAct (s : IdeaState) (a : CameraAction) : IdeaState :=
  match a with
  | Pan dx dy => pan dx dy s
  | Zoom factor centerX centerY => zoom factor centerX centerY s
  | ResetCamera => resetCamera s
  end.

(** *** utils/bezier.ts: control points, points on the curve, length *)

Module BezierControlPoints.
Record t := mk { cp1x : R; cp1y : R; cp2x : R; cp2y : R }.
End BezierControlPoints.

(** [curvature] is the optional last argument (default 0.5). *)
Definition calculateBezierControlPoints (startX startY endX endY : R)
  (curvature : option R) : BezierControlPoints.t :=
  let curvature := default (1 / 2) curvature in
  let dx := endX - startX in
  let dy := endY - startY in
  let distance := sqrt (dx * dx + dy * dy) in
  let angle := Js.atan2 dy dx in
  let offset := Rmin (distance * curvature) 150 in
  let perpAngle1 := angle + PI / 4 in
  let perpAngle2 := angle - PI / 4 in
  BezierControlPoints.mk
    (startX + cos angle * offset * (3 / 10) + cos perpAngle1 * offset * (2 / 10))
    (startY + sin angle * offset * (3 / 10) + sin perpAngle1 * offset * (2 / 10))
    (endX - cos angle * offset * (3 / 10) + cos perpAngle2 * offset * (2 / 10))
    (endY - sin angle * offset * (3 / 10) + sin perpAngle2 * offset * (2 / 10)).

Definition getBezierPoint (t startX startY cp1x cp1y cp2x cp2y endX endY : R)
  : R * R :=
  let u := 1 - t in
  let tt := t * t in
  let uu := u * u in
  let uuu := uu * u in
  let ttt := tt * t in
  (uuu * startX + 3 * uu * t * cp1x + 3 * u * tt * cp2x + ttt * endX,
   uuu * startY + 3 * uu * t * cp1y + 3 * u * tt * cp2y + ttt * endY).

(** One round of the loop of [getBezierLength]: the accumulator is
    [(length, prevPoint)], [i] the loop counter. *)
Definition bezierLengthStep
  (startX startY cp1x cp1y cp2x cp2y endX endY segments : R)
  (acc : R * (R * R)) (i : nat) : R * (R * R) :=
  let t := INR i / segments in
  let point :=
    getBezierPoint t startX startY cp1x cp1y cp2x cp2y endX endY in
  let dx := fst point - fst (snd acc) in
  let dy := snd point - snd (snd acc) in
  (fst acc + sqrt (dx * dx + dy * dy), point).

(** [for (let i = 1; i <= segments; i++)]: the counter takes the values
    1, ..., floor(segments), none when [segments < 1].  [segments] is the
    optional last argument (default 20). *)
Definition getBezierLength
  (startX startY cp1x cp1y cp2x cp2y endX endY : R) (segments : option R)
  : R :=
  let segments := default 20 segments in
  fst (foldl
         (bezierLengthStep startX startY cp1x cp1y cp2x cp2y endX endY
                           segments)
         (0, (startX, startY))
         (seq 1 (Z.to_nat (Js.floor segments)))).

(** *** utils/colors.ts: hex colours *)

Module Colors.
Import Stdlib.Strings.Ascii.

Record Rgb := mkRgb { r : Z; g : Z; b : Z }.

(** The value of a character of the class [[a-f\d]] under the [i] flag. *)
Definition hexDigitValue (c : Ascii.ascii) : option Z :=
  let n := Z.of_nat (Ascii.nat_of_ascii c) in
  if ((48 <=? n) && (n <=? 57))%Z then Some (n - 48)%Z
  else if ((97 <=? n) && (n <=? 102))%Z then Some (n - 87)%Z
  else if ((65 <=? n) && (n <=? 70))%Z then Some (n - 55)%Z
  else None.

(** [parseInt(group, 16)] on a group of two hex digits. *)
Definition parseHexPair (hi lo : Ascii.ascii) : option Z :=
  h ← hexDigitValue hi;
  l ← hexDigitValue lo;
  Some (16 * h + l)%Z.

(** The match of [/^#?([a-f\d]{2})([a-f\d]{2})([a-f\d]{2})$/i]: an optional
    [#], then exactly six hex digits. *)
Definition hexToRgb (hex : string) : option Rgb :=
  let body :=
    match hex with
    | String c rest => if decide (c = "#"%char) then rest else hex
    | EmptyString => hex
    end in
  match body with
  | String r1 (String r2 (String g1 (String g2 (String b1 (String b2
      EmptyString))))) =>
      r ← parseHexPair r1 r2;
      g ← parseHexPair g1 g2;
      b ← parseHexPair b1 b2;
      Some (mkRgb r g b)
  | _ => None
  end.

(** [Math.round]: the nearest integer, halves upward. *)
Definition round (x : R) : Z := Js.floor (x + 1 / 2).

(** A digit of [toString(16)]. *)
Definition hexDigit (n : Z) : Ascii.ascii :=
  if (n <? 10)%Z then Ascii.ascii_of_nat (Z.to_nat (48 + n))
  else Ascii.ascii_of_nat (Z.to_nat (87 + n)).

(** [n.toString(16)] for an integer from 0 to 255, which is all the clamp
    in [rgbToHex] lets through. *)
Definition toString16 (n : Z) : string :=
  if (n <? 16)%Z then String (hexDigit n) EmptyString
  else String (hexDigit (n / 16)) (String (hexDigit (n mod 16)) EmptyString).

(** The integer a channel value is written as. *)
Definition channel (x : R) : Z := Z.max 0 (Z.min 255 (round x)).

(** [hex.length === 1 ? '0' + hex : hex] on the digits of [n]. *)
Definition byteHex (n : Z) : string :=
  let hex := toString16 n in
  if decide (String.length hex = 1%nat) then String "0" hex else hex.

(** The body of the [map] in [rgbToHex]. *)
Definition channelHex (x : R) : string := byteHex (channel x).

(** [byteHex n] is two hex digits that read back as [n]. *)
Definition byteReadsBack (n : nat) : bool :=
  match byteHex (Z.of_nat n) with
  | String hi (String lo EmptyString) =>
      match parseHexPair hi lo with
      | Some k => (k =? Z.of_nat n)%Z
      | None => false
      end
  | _ => false
  end.

Definition rgbToHex (r g b : R) : string :=
  String "#" (String.append (channelHex r)
                (String.append (channelHex g) (channelHex b))).

Definition adjustBrightness (hex : string) (percent : R) : string :=
  match hexToRgb hex with
  | None => hex
  | Some rgb =>
      let r := IZR (r rgb) in
      let g := IZR (g rgb) in
      let b := IZR (b rgb) in
      let adjustedR := Rmax 0 (Rmin 255 (r + r * percent / 100)) in
      let adjustedG := Rmax 0 (Rmin 255 (g + g * percent / 100)) in
      let adjustedB := Rmax 0 (Rmin 255 (b + b * percent / 100)) in
      rgbToHex adjustedR adjustedG adjustedB
  end.

Definition mixColors (color1 color2 : string) (ratio : R) : string :=
  match hexToRgb color1, hexToRgb color2 with
  | Some rgb1, Some rgb2 =>
      let clampedRatio := Rmax 0 (Rmin 1 ratio) in
      let r := IZR (r rgb1) + (IZR (r rgb2) - IZR (r rgb1)) * clampedRatio in
      let g := IZR (g rgb1) + (IZR (g rgb2) - IZR (g rgb1)) * clampedRatio in
      let b := IZR (b rgb1) + (IZR (b rgb2) - IZR (b rgb1)) * clampedRatio in
      rgbToHex r g b
  | _, _ => color1
  end.

End Colors.

(** *** components/nodes/IdeaNode.tsx: hit test and pointer handlers *)

(** The local state of one node component. *)
Module NodeView.
Record t := mk {
  isDragging : bool;
  isHoveringEdge : bool;
  spawnPoint : option (R * R);
  lastPosition : R * R;
  velocity : R * R
}.
End NodeView.

(** [pointer] is the pointer position in world coordinates, as the inverted
    stage transform gives it; [None] when the event has no stage or no
    pointer position. *)
Definition checkEdgeHover (node : IdeaNode.t) (pointer : option (R * R))
  : bool :=
  match pointer with
  | None => false
  | Some pos =>
      let dx := fst pos - IdeaNode.x node in
      let dy := snd pos - IdeaNode.y node in
      let distance := sqrt (dx * dx + dy * dy) in
      let innerRadius := IdeaNode.radius node * (7 / 10) in
      let outerRadius := IdeaNode.radius node * (12 / 10) in
      (if Rle_dec innerRadius distance then true else false)
      && (if Rle_dec distance outerRadius then true else false)
  end.

Definition calculateSpawnPoint (node : IdeaNode.t) (pointer : option (R * R))
  : option (R * R) :=
  match pointer with
  | None => None
  | Some pos =>
      let angle :=
        Js.atan2 (snd pos - IdeaNode.y node) (fst pos - IdeaNode.x node) in
      Some (IdeaNode.x node + cos angle * IdeaNode.radius node,
            IdeaNode.y node + sin angle * IdeaNode.radius node)
  end.

(** [Math.min(Math.max(10, node.radius / 2.5), 16)] *)
Definition getFontSize (node : IdeaNode.t) : R :=
  let baseSize := Rmax 10 (IdeaNode.radius node / (25 / 10)) in
  Rmin baseSize 16.

(** The text as its sequence of code units; [maxLength] is the optional
    second argument (default 8), here a count of units. *)
Definition truncateText {A} (dot : A) (text : list A) (maxLength : option nat)
  : list A :=
  let maxLength := default 8%nat maxLength in
  if decide (length text <= maxLength)%nat then text
  else take maxLength text ++ [dot; dot; dot].

(** The node handlers call back into the canvas; the pair is the node's
    local state and the canvas. *)
Definition handleNodeDragStart (nodeId : string) (c : Canvas) : Canvas :=
  mkCanvas (selectNode (Some nodeId) (store c)) (physics c) (isPanning c)
           (lastPanPoint c) (isSpacePressed c).

Definition nodeMouseDown (node : IdeaNode.t) (button : Z)
  (pointer : option (R * R)) (vc : NodeView.t * Canvas)
  : NodeView.t * Canvas :=
  let v := fst vc in
  let c := snd vc in
  if bool_decide (button = 0%Z) then
    if checkEdgeHover node pointer then
      match calculateSpawnPoint node pointer with
      | Some point =>
          (v, handleNodeSpawnStart (IdeaNode.id node) (fst point) (snd point) c)
      | None => (v, c)
      end
    else
      (NodeView.mk true (NodeView.isHoveringEdge v) (NodeView.spawnPoint v)
                   (IdeaNode.x node, IdeaNode.y node) (0, 0),
       handleNodeDragStart (IdeaNode.id node) c)
  else (v, c).

(** [newPos] is the position Konva has given the dragged group. *)
Definition nodeDragMove (node : IdeaNode.t) (newPos : R * R)
  (vc : NodeView.t * Canvas) : NodeView.t * Canvas :=
  let v := fst vc in
  let c := snd vc in
  if negb (NodeView.isDragging v) then (v, c)
  else
    (NodeView.mk (NodeView.isDragging v) (NodeView.isHoveringEdge v)
                 (NodeView.spawnPoint v) newPos
                 (fst newPos - fst (NodeView.lastPosition v),
                  snd newPos - snd (NodeView.lastPosition v)),
     handleNodeDragMove (IdeaNode.id node) (fst newPos) (snd newPos) c).

Definition nodeDragEnd (vc : NodeView.t * Canvas) : NodeView.t * Canvas :=
  let v := fst vc in
  (NodeView.mk false (NodeView.isHoveringEdge v) (NodeView.spawnPoint v)
               (NodeView.lastPosition v) (NodeView.velocity v),
   handleNodeDragEnd (snd vc)).

(** *** The canvas and the toolbar: what remains *)

(** The arguments the canvas calls the physics hook with. *)
Definition canvasProps (s : IdeaState) : Props.t :=
  Props.mk (nodes s) (edges s) (canvasWidth s) (canvasHeight s) true.

(** A render of the canvas: the hook's effect runs again on the store as it
    stands. *)
Definition render (c : Canvas) : option Canvas :=
  e ← rerun (canvasProps (store c)) (physics c);
  Some (mkCanvas (store c) e (isPanning c) (lastPanPoint c)
                 (isSpacePressed c)).

Definition statusUpdate (status : NodeStatus) : NodeUpdates.t :=
  NodeUpdates.mk None None None (Some status) None None None None None None.

(** The toolbar's handlers; a selection is read as a boolean. *)
Definition handleZoomIn (s : IdeaState) : IdeaState := zoom (12 / 10) None None s.
Definition handleZoomOut (s : IdeaState) : IdeaState := zoom (8 / 10) None None s.

Definition handleStatusChange (status : NodeStatus) (s : IdeaState)
  : IdeaState :=
  match selectedNodeId s with
  | Some id =>
      if Js.truthy_str (Some id) then updateNode id (statusUpdate status) s
      else s
  | None => s
  end.

(** *** Notions for the further properties *)

(** The engines that a history of renders and calls can produce. *)
Inductive reachable
  (pairForces :
     R -> list PhysicsEdge.t -> list PhysicsNode.t -> PhysicsNode.t -> R * R)
  : Engine -> Prop :=
| reach_start : reachable pairForces emptyEngine
| reach_rerun props e e1 :
    reachable pairForces e -> rerun props e = Some e1 ->
    reachable pairForces e1
| reach_call e c :
    reachable pairForces e -> reachable pairForces (call pairForces e c).

(** The store of objects and the simulation agree: every object sits under
    its own id, and the simulation's nodes are exactly the keys of the
    store (no object at all before the simulation exists). *)
Definition wellFormed (e : Engine) : Prop :=
  (forall i n, nodesRef e !! i = Some n -> PhysicsNode.id n = i)
  /\ match simulationRef e with
     | Some sim =>
         forall i, i ∈ Simulation.nodes sim <-> is_Some (nodesRef e !! i)
     | None => nodesRef e = ∅
     end.

(** Distance between two points, as [getBezierLength] takes it. *)
Definition segment (p q : R * R) : R :=
  sqrt ((fst q - fst p) * (fst q - fst p) + (snd q - snd p) * (snd q - snd p)).

(** Squared distance between two points. *)
Definition dist2 (p q : R * R) : R :=
  (fst p - fst q) * (fst p - fst q) + (snd p - snd q) * (snd p - snd q).

(** * Properties *)

(** ** The store *)

Lemma generateId_nonempty env : generateId env <> EmptyString.
Proof. unfold generateId. simpl. discriminate. Qed.

Lemma or_num_zero d : Js.or_num (Some 0) d = d.
Proof. unfold Js.or_num. destruct (Req_dec_T 0 0); [reflexivity | lra]. Qed.

Lemma or_num_nonzero v d : v <> 0 -> Js.or_num (Some v) d = v.
Proof. intros Hv. unfold Js.or_num. destruct (Req_dec_T v 0); [lra | reflexivity]. Qed.

Lemma floor_bounds r : (IZR (Js.floor r) <= r < IZR (Js.floor r) + 1).
Proof.
  unfold Js.floor. destruct (base_Int_part r) as [H1 H2]. lra.
Qed.

Lemma getRandomColor_theme env :
  0 <= random env < 1 ->
  exists c, getRandomColor env = Some c /\ c ∈ NODE_COLORS.
Proof.
  intros [Hlo Hhi]. unfold getRandomColor.
  set (k := Js.floor (random env * INR (length NODE_COLORS))).
  assert (Hlen : INR (length NODE_COLORS) = 8) by (simpl; lra).
  destruct (floor_bounds (random env * INR (length NODE_COLORS))) as [Hk1 Hk2].
  fold k in Hk1, Hk2. rewrite Hlen in Hk1, Hk2.
  assert (Hk : (0 <= k <= 7)%Z).
  { assert (H1 : IZR (-1) < IZR k) by lra.
    assert (H2 : IZR k < IZR 8) by lra.
    apply lt_IZR in H1, H2. lia. }
  assert (Hcases : (k = 0 \/ k = 1 \/ k = 2 \/ k = 3 \/ k = 4 \/ k = 5
                    \/ k = 6 \/ k = 7)%Z) by lia.
  clearbody k. clear Hk Hk1 Hk2.
  destruct Hcases as [Hc|[Hc|[Hc|[Hc|[Hc|[Hc|[Hc|Hc]]]]]]]; rewrite Hc;
    (eexists; split; [reflexivity | unfold NODE_COLORS; set_solver]).
Qed.

(** C9.  [addNode] appends one node whose radius, energy and colour are the
    defaults not only when the field is absent but also when it is falsy:
    radius 0 becomes 35, energy 0 becomes 0.5, and the empty colour becomes
    one of the theme colours; a non-zero radius or energy and a non-empty
    colour are kept. *)
Theorem addNode_defaults_replace_falsy (env : Env) (d : NodeData.t)
  (s : IdeaState) :
  0 <= random env < 1 ->
  exists n,
    nodes (snd (addNode env d s)) = nodes s ++ [n]
    /\ IdeaNode.id n = fst (addNode env d s)
    /\ (NodeData.radius d = Some 0 \/ NodeData.radius d = None ->
        IdeaNode.radius n = 35)
    /\ (forall r, NodeData.radius d = Some r -> r <> 0 -> IdeaNode.radius n = r)
    /\ (NodeData.energy d = Some 0 \/ NodeData.energy d = None ->
        IdeaNode.energy n = 1 / 2)
    /\ (forall v, NodeData.energy d = Some v -> v <> 0 -> IdeaNode.energy n = v)
    /\ (NodeData.color d = Some EmptyString \/ NodeData.color d = None ->
        IdeaNode.color n ∈ NODE_COLORS)
    /\ (forall c, NodeData.color d = Some c -> c <> EmptyString ->
        IdeaNode.color n = c).
Proof.
  intros Hr. destruct (getRandomColor_theme env Hr) as (c0 & Hc0 & Hin).
  eexists. split; [reflexivity |]. simpl.
  split; [reflexivity |].
  repeat split.
  - intros [-> | ->]; [apply or_num_zero | reflexivity].
  - intros r -> Hne. now apply or_num_nonzero.
  - intros [-> | ->]; [apply or_num_zero | reflexivity].
  - intros v -> Hne. now apply or_num_nonzero.
  - rewrite Hc0. simpl. intros [-> | ->]; simpl; exact Hin.
  - intros c -> Hne. unfold Js.or_str. destruct (decide (c = EmptyString)); congruence.
Qed.

Lemma addNode_defaults_replace_falsy_witness :
  exists n,
    nodes (snd (addNode sampleEnv
                  (NodeData.mk "idea" 10 20 None (Some 0) (Some 0)
                               (Some EmptyString) None)
                  (initialState 800 600))) = [] ++ [n]
    /\ IdeaNode.radius n = 35 /\ IdeaNode.energy n = 1 / 2
    /\ IdeaNode.color n ∈ NODE_COLORS.
Proof.
  destruct (addNode_defaults_replace_falsy sampleEnv
              (NodeData.mk "idea" 10 20 None (Some 0) (Some 0)
                           (Some EmptyString) None)
              (initialState 800 600))
    as (n & Hn & _ & Hr & _ & He & _ & Hc & _).
  - simpl. lra.
  - exists n. split; [exact Hn |].
    split; [apply Hr; left; reflexivity |].
    split; [apply He; left; reflexivity | apply Hc; left; reflexivity].
Defined.

(** C10.  After [removeNode id] no node carries the id and no edge starts or
    ends at it; every other node and edge is still there, nothing is added
    and the order is kept; the selection is cleared exactly when it was the
    removed id; camera, spawn state, editing id and canvas size are
    untouched. *)
Theorem removeNode_drops_node_and_incident_edges (id : string) (s : IdeaState) :
  let s' := removeNode id s in
  (forall n, n ∈ nodes s' <-> n ∈ nodes s /\ IdeaNode.id n <> id)
  /\ (forall e, e ∈ edges s' <->
        e ∈ edges s /\ IdeaEdge.sourceId e <> id /\ IdeaEdge.targetId e <> id)
  /\ nodes s' `sublist_of` nodes s
  /\ edges s' `sublist_of` edges s
  /\ selectedNodeId s' <> Some id
  /\ (selectedNodeId s = Some id -> selectedNodeId s' = None)
  /\ (selectedNodeId s <> Some id -> selectedNodeId s' = selectedNodeId s)
  /\ camera s' = camera s
  /\ dragSpawn s' = dragSpawn s
  /\ editingNodeId s' = editingNodeId s
  /\ canvasWidth s' = canvasWidth s
  /\ canvasHeight s' = canvasHeight s.
Proof.
  intros s'. subst s'. unfold removeNode. simpl.
  split; [intros n; rewrite list_elem_of_filter; tauto |].
  split; [intros e; rewrite list_elem_of_filter; tauto |].
  split; [apply sublist_filter |].
  split; [apply sublist_filter |].
  destruct (decide (selectedNodeId s = Some id)) as [Heq | Hne].
  - repeat split; try reflexivity; congruence.
  - repeat split; try reflexivity; congruence.
Qed.

(** ** The camera *)

Lemma max_min_is_clamp v lo hi :
  lo <= hi -> Rmax lo (Rmin hi v) = clamp v lo hi.
Proof.
  intros Hlh. unfold Rmax, Rmin, clamp.
  destruct (Rle_dec hi v), (Rlt_dec v lo), (Rlt_dec hi v);
    try destruct (Rle_dec lo hi); try destruct (Rle_dec lo v); lra.
Qed.

Lemma clamp_in_range v lo hi : lo <= hi -> lo <= clamp v lo hi <= hi.
Proof.
  intros Hlh. unfold clamp.
  destruct (Rlt_dec v lo); [lra |]. destruct (Rlt_dec hi v); lra.
Qed.

(** C3.  From a camera whose scale lies in [0.1, 5], [zoom] with any factor
    and any pivot (the viewport center standing in for a missing one) sets
    the scale to [clamp (scale * factor) 0.1 5], which is again in
    [0.1, 5], sets the offset to
    [pivot - (pivot - offset) * (newScale / scale)], and the world point
    under the pivot before the zoom is drawn at the pivot after it.  The
    rest of the state is untouched. *)
Theorem zoom_keeps_pivot_fixed (factor : R) (centerX centerY : option R)
  (s : IdeaState) :
  1 / 10 <= CameraState.scale (camera s) <= 5 ->
  let cam := camera s in
  let cam' := camera (zoom factor centerX centerY s) in
  let pivot := pivotOf centerX centerY s in
  let world := screenToWorld cam (fst pivot) (snd pivot) in
  CameraState.scale cam' = clamp (CameraState.scale cam * factor) (1 / 10) 5
  /\ 1 / 10 <= CameraState.scale cam' <= 5
  /\ CameraState.offsetX cam' =
       fst pivot - (fst pivot - CameraState.offsetX cam)
                   * (CameraState.scale cam' / CameraState.scale cam)
  /\ CameraState.offsetY cam' =
       snd pivot - (snd pivot - CameraState.offsetY cam)
                   * (CameraState.scale cam' / CameraState.scale cam)
  /\ stageToScreen cam' (fst world) (snd world) = pivot
  /\ nodes (zoom factor centerX centerY s) = nodes s
  /\ edges (zoom factor centerX centerY s) = edges s.
Proof.
  intros Hsc cam cam' pivot world.
  assert (Hscale : CameraState.scale cam' =
                   clamp (CameraState.scale cam * factor) (1 / 10) 5).
  { subst cam'. unfold zoom. simpl. apply max_min_is_clamp. lra. }
  assert (Hpx : fst pivot = Js.nullish centerX (canvasWidth s / 2))
    by (destruct centerX; reflexivity).
  assert (Hpy : snd pivot = Js.nullish centerY (canvasHeight s / 2))
    by (destruct centerY; reflexivity).
  assert (Hox : CameraState.offsetX cam' =
       fst pivot - (fst pivot - CameraState.offsetX cam)
                   * (CameraState.scale cam' / CameraState.scale cam)).
  { rewrite Hpx. reflexivity. }
  assert (Hoy : CameraState.offsetY cam' =
       snd pivot - (snd pivot - CameraState.offsetY cam)
                   * (CameraState.scale cam' / CameraState.scale cam)).
  { rewrite Hpy. reflexivity. }
  split; [exact Hscale |].
  split; [rewrite Hscale; apply clamp_in_range; lra |].
  split; [exact Hox |]. split; [exact Hoy |].
  split; [| split; reflexivity].
  unfold stageToScreen, world, screenToWorld. simpl fst. simpl snd.
  rewrite Hox, Hoy. fold cam.
  assert (Hne : CameraState.scale cam <> 0) by (subst cam; lra).
  apply injective_projections; simpl fst; simpl snd; field; exact Hne.
Qed.

Lemma zoom_keeps_pivot_fixed_witness :
  let s := initialState 800 600 in
  let cam' := camera (zoom (12 / 10) None None s) in
  let pivot := pivotOf None None s in
  let world := screenToWorld (camera s) (fst pivot) (snd pivot) in
  CameraState.scale cam' = clamp (1 * (12 / 10)) (1 / 10) 5
  /\ stageToScreen cam' (fst world) (snd world) = pivot.
Proof.
  intros s cam' pivot world.
  assert (Hsc : 1 / 10 <= CameraState.scale (camera s) <= 5) by (simpl; lra).
  split.
  - exact (proj1 (zoom_keeps_pivot_fixed (12 / 10) None None s Hsc)).
  - exact (proj1 (proj2 (proj2 (proj2 (proj2
             (zoom_keeps_pivot_fixed (12 / 10) None None s Hsc)))))).
Defined.

(** ** The spawn gesture *)

Section SpawnGesture.

Variable c0 : Canvas.
Variable A : string.
Variable start : R * R.
Hypothesis A_nonempty : A <> EmptyString.
Hypothesis not_panning : isPanning c0 = false.

Lemma spawning_start :
  spawning c0 A start start
           (handleNodeSpawnStart A (fst start) (snd start) c0).
Proof. unfold spawning. simpl. auto. Qed.

Lemma spawning_move current pos c :
  spawning c0 A start current c ->
  spawning c0 A start
           (screenToWorld (camera (store c0)) (fst pos) (snd pos))
           (handleMouseMove pos c).
Proof.
  intros (Hpan & Hn & He & Hcam & Hd). unfold handleMouseMove.
  rewrite Hpan, Hd. simpl. unfold spawning. simpl.
  rewrite Hcam, Hd. simpl. auto.
Qed.

Lemma spawning_moves moves :
  spawning c0 A start (releasePoint (camera (store c0)) start moves)
           (pointerMoves moves
              (handleNodeSpawnStart A (fst start) (snd start) c0)).
Proof.
  induction moves as [| pos moves IH] using rev_ind.
  - apply spawning_start.
  - unfold pointerMoves, releasePoint in *. rewrite foldl_app, last_snoc.
    simpl. eapply spawning_move. exact IH.
Qed.

Lemma spawning_end current c :
  spawning c0 A start current c ->
  endDragSpawn (store c) =
    (Some (SpawnResult.mk (fst current) (snd current) A),
     set_dragSpawn initialDragSpawn (store c)).
Proof.
  intros (_ & _ & _ & _ & Hd). unfold endDragSpawn. rewrite Hd. simpl.
  destruct (decide (A = EmptyString)); [contradiction | reflexivity].
Qed.

End SpawnGesture.

(** The guard of [endDragSpawn] reads the source id as a boolean: a gesture
    recorded under the empty id gives no result and is left active.  Ids
    made by [generateId] are never empty. *)
Remark endDragSpawn_ignores_empty_source s x y :
  endDragSpawn (startDragSpawn EmptyString x y s)
  = (None, startDragSpawn EmptyString x y s).
Proof. reflexivity. Qed.

(** C6.  A spawn gesture started from node [A] (pointer-down in its edge
    band, then any pointer moves, also none at all) ends at pointer-up with
    exactly one completion result: [endDragSpawn] returns
    [{sourceNodeId: A, x, y}] with the coordinates of the current world
    point, which is the start point when there was no move; the canvas
    creates one node there and one edge from [A] to it; the spawn state is
    reset ([isDragging = false]), so that a further pointer-up returns no
    result and changes nothing. *)
Theorem spawn_gesture_completes_once (envNode envEdge envNode' envEdge' : Env)
  (c0 : Canvas) (A : string) (start : R * R) (moves : list (R * R)) :
  A <> EmptyString ->
  isPanning c0 = false ->
  let c2 := pointerMoves moves
              (handleNodeSpawnStart A (fst start) (snd start) c0) in
  let P := releasePoint (camera (store c0)) start moves in
  let c3 := handleMouseUp envNode envEdge c2 in
  fst (endDragSpawn (store c2)) = Some (SpawnResult.mk (fst P) (snd P) A)
  /\ dragSpawn (snd (endDragSpawn (store c2))) = initialDragSpawn
  /\ dragSpawn (store c3) = initialDragSpawn
  /\ DragSpawnState.isDragging (dragSpawn (store c3)) = false
  /\ (exists n e,
        nodes (store c3) = nodes (store c0) ++ [n]
        /\ edges (store c3) = edges (store c0) ++ [e]
        /\ IdeaNode.x n = fst P /\ IdeaNode.y n = snd P
        /\ IdeaNode.parentId n = Some A
        /\ IdeaEdge.sourceId e = A
        /\ IdeaEdge.targetId e = IdeaNode.id n)
  /\ fst (endDragSpawn (store c3)) = None
  /\ handleMouseUp envNode' envEdge' c3 = c3
  /\ (moves = [] -> P = start).
Proof.
  intros HA Hpan c2 P c3.
  pose proof (spawning_moves c0 A start Hpan moves) as Hsp.
  fold c2 in Hsp. fold P in Hsp.
  pose proof (spawning_end c0 A start HA P c2 Hsp) as Hend.
  destruct Hsp as (Hp2 & Hn2 & He2 & Hc2 & Hd2).
  assert (Hc3 : c3 =
    mkCanvas
      (snd (addEdge envEdge
              (EdgeData.mk A (generateId envNode) (Some DERIVE))
              (snd (addNode envNode
                      (spawnNodeData (SpawnResult.mk (fst P) (snd P) A))
                      (set_dragSpawn initialDragSpawn (store c2))))))
      (reheat (physics c2)) (isPanning c2) (lastPanPoint c2)
      (isSpacePressed c2)).
  { subst c3. unfold handleMouseUp. rewrite Hp2, Hd2, Hend. reflexivity. }
  rewrite Hend. simpl fst. simpl snd.
  split; [reflexivity |]. split; [reflexivity |].
  rewrite Hc3. simpl.
  split; [reflexivity |]. split; [reflexivity |].
  split.
  { eexists. eexists. rewrite Hn2, He2.
    split; [reflexivity |]. split; [reflexivity |]. simpl. auto. }
  split; [reflexivity |].
  split.
  { unfold handleMouseUp. simpl. rewrite Hp2. reflexivity. }
  intros ->. reflexivity.
Qed.

Lemma spawn_gesture_completes_once_witness :
  let c0 := mkCanvas (initialState 800 600) emptyEngine false (0, 0) false in
  let c2 := pointerMoves [] (handleNodeSpawnStart "node_a" 30 40 c0) in
  fst (endDragSpawn (store c2)) = Some (SpawnResult.mk 30 40 "node_a").
Proof.
  intros c0 c2.
  assert (Hne : "node_a"%string <> EmptyString) by discriminate.
  exact (proj1 (spawn_gesture_completes_once sampleEnv sampleEnv sampleEnv
                  sampleEnv c0 "node_a" (30, 40) [] Hne eq_refl)).
Defined.

(** ** The edge anchor point *)

Lemma hypot_scale x y :
  x <> 0 -> sqrt (x * x + y * y) = Rabs x * sqrt (1 + (y / x)²).
Proof.
  intros Hx.
  replace (x * x + y * y) with (x² * (1 + (y / x)²)) by (unfold Rsqr; field; exact Hx).
  rewrite sqrt_mult.
  - rewrite sqrt_Rsqr_abs. reflexivity.
  - apply Rle_0_sqr.
  - pose proof (Rle_0_sqr (y / x)). lra.
Qed.

Lemma hypot_pos x y : x <> 0 \/ y <> 0 -> 0 < sqrt (x * x + y * y).
Proof.
  intros H. apply sqrt_lt_R0.
  destruct H as [H | H].
  - assert (0 < x * x) by nra. nra.
  - assert (0 < y * y) by nra. nra.
Qed.

Lemma sqrt_one_plus_sqr_pos z : 0 < sqrt (1 + z²).
Proof. apply sqrt_lt_R0. pose proof (Rle_0_sqr z). lra. Qed.

(** The direction of [Math.atan2 y x] is the direction of [(x, y)]. *)
Lemma cos_sin_atan2 x y :
  x <> 0 \/ y <> 0 ->
  cos (Js.atan2 y x) = x / sqrt (x * x + y * y)
  /\ sin (Js.atan2 y x) = y / sqrt (x * x + y * y).
Proof.
  intros Hxy. unfold Js.atan2.
  pose proof (sqrt_one_plus_sqr_pos (y / x)) as Hs.
  destruct (Rlt_dec 0 x) as [Hpos | Hnpos].
  - rewrite cos_atan, sin_atan, hypot_scale by lra.
    rewrite Rabs_right by lra. split; field; lra.
  - destruct (Rlt_dec x 0) as [Hneg | Hnneg].
    + assert (Hc : - cos (atan (y / x)) = x / sqrt (x * x + y * y)).
      { rewrite cos_atan, hypot_scale by lra.
        rewrite Rabs_left by lra. field; lra. }
      assert (Hsn : - sin (atan (y / x)) = y / sqrt (x * x + y * y)).
      { rewrite sin_atan, hypot_scale by lra.
        rewrite Rabs_left by lra. field; lra. }
      destruct (Rle_dec 0 y).
      * rewrite neg_cos, neg_sin. split; assumption.
      * rewrite cos_minus, sin_minus, cos_PI, sin_PI. split; lra.
    + assert (Hx0 : x = 0) by lra. subst x.
      assert (Hy : y <> 0) by (destruct Hxy; [lra | assumption]).
      replace (0 * 0 + y * y) with (y²) by (unfold Rsqr; ring).
      rewrite sqrt_Rsqr_abs.
      destruct (Rlt_dec 0 y) as [Hyp | Hynp].
      * rewrite cos_PI2, sin_PI2, Rabs_right by lra. split; field; lra.
      * destruct (Rlt_dec y 0) as [Hyn | Hynn]; [| lra].
        rewrite cos_neg, sin_neg, cos_PI2, sin_PI2, Rabs_left by lra.
        split; field; lra.
Qed.

(** C8.  For a positive radius and a target other than the center,
    [getEdgePoint] returns a point at distance exactly [fromRadius] from
    the center, on the ray from the center through the target: it is the
    center plus a positive multiple of the vector to the target. *)
Theorem getEdgePoint_on_circle_toward_target
  (fromX fromY fromRadius toX toY : R) :
  0 < fromRadius ->
  (toX, toY) <> (fromX, fromY) ->
  let p := getEdgePoint fromX fromY fromRadius toX toY in
  sqrt ((fst p - fromX) * (fst p - fromX) + (snd p - fromY) * (snd p - fromY))
    = fromRadius
  /\ exists t, 0 < t
       /\ fst p = fromX + t * (toX - fromX)
       /\ snd p = fromY + t * (toY - fromY).
Proof.
  intros Hr Hne p. subst p. unfold getEdgePoint. simpl.
  set (dx := toX - fromX). set (dy := toY - fromY).
  assert (Hd : dx <> 0 \/ dy <> 0).
  { destruct (Req_dec dx 0) as [Hx | Hx]; [| left; exact Hx].
    destruct (Req_dec dy 0) as [Hy | Hy]; [| right; exact Hy].
    exfalso. apply Hne. subst dx dy. f_equal; lra. }
  split.
  - set (a := Js.atan2 dy dx).
    replace ((fromX + cos a * fromRadius - fromX)
             * (fromX + cos a * fromRadius - fromX)
             + (fromY + sin a * fromRadius - fromY)
               * (fromY + sin a * fromRadius - fromY))
      with (fromRadius² * ((sin a)² + (cos a)²)) by (unfold Rsqr; ring).
    rewrite sin2_cos2, Rmult_1_r, sqrt_Rsqr_abs. apply Rabs_right. lra.
  - destruct (cos_sin_atan2 dx dy Hd) as [Hc Hs].
    pose proof (hypot_pos dx dy Hd) as Hpos.
    exists (fromRadius / sqrt (dx * dx + dy * dy)).
    split; [apply Rdiv_lt_0_compat; assumption |].
    rewrite Hc, Hs. split; field; lra.
Qed.

Lemma getEdgePoint_on_circle_toward_target_witness :
  let p := getEdgePoint 0 0 2 3 4 in
  sqrt ((fst p - 0) * (fst p - 0) + (snd p - 0) * (snd p - 0)) = 2.
Proof.
  intros p.
  assert (Hr : 0 < 2) by lra.
  assert (Hne : ((3, 4) : R * R) <> (0, 0)).
  { intros H. injection H as H3 H4. lra. }
  exact (proj1 (getEdgePoint_on_circle_toward_target 0 0 2 3 4 Hr Hne)).
Defined.

(** ** The decay of alpha *)

(** Replaces the configured constants by their values. *)
Ltac unfold_config :=
  unfold PHYSICS_CONFIG.alpha.min, PHYSICS_CONFIG.alpha.decay,
    PHYSICS_CONFIG.alpha.start, PHYSICS_CONFIG.forceCenter.strength in *.

Lemma decayAlpha_bounds a :
  PHYSICS_CONFIG.alpha.min <= a ->
  PHYSICS_CONFIG.alpha.min <= decayAlpha a <= a.
Proof.
  unfold decayAlpha. unfold_config.
  intros Ha. destruct (Rlt_dec _ _); lra.
Qed.

Lemma alphaAfter_floor n : PHYSICS_CONFIG.alpha.min <= alphaAfter n.
Proof.
  induction n as [| n IH].
  - unfold alphaAfter. unfold_config. simpl. lra.
  - unfold alphaAfter in *. simpl. now apply decayAlpha_bounds.
Qed.

Lemma pow_antitone x n m :
  0 <= x <= 1 -> (n <= m)%nat -> x ^ m <= x ^ n.
Proof.
  intros Hx Hnm. induction Hnm as [| m Hnm IH].
  - lra.
  - simpl. pose proof (pow_le x m (proj1 Hx)). nra.
Qed.

(** Powers of 98/100 against a rational bound, decided on integers. *)
Lemma pow98_as_quotient n :
  (98 / 100) ^ n = IZR (98 ^ Z.of_nat n) / IZR (100 ^ Z.of_nat n).
Proof.
  unfold Rdiv. rewrite Rpow_mult_distr, pow_inv, !pow_IZR. reflexivity.
Qed.

Lemma pow100_pos n : 0 < IZR (100 ^ Z.of_nat n).
Proof. rewrite <- pow_IZR. apply pow_lt. lra. Qed.

Lemma pow98_above n (p q : Z) :
  (0 < q)%Z ->
  (p * 100 ^ Z.of_nat n <? q * 98 ^ Z.of_nat n)%Z = true ->
  IZR p / IZR q < (98 / 100) ^ n.
Proof.
  intros Hq Hlt. apply Z.ltb_lt in Hlt. apply IZR_lt in Hlt.
  rewrite !mult_IZR in Hlt. rewrite pow98_as_quotient.
  pose proof (pow100_pos n) as H100. apply IZR_lt in Hq.
  apply Rmult_lt_reg_r with (r := IZR q * IZR (100 ^ Z.of_nat n)); [nra |].
  field_simplify; lra.
Qed.

Lemma pow98_below n (p q : Z) :
  (0 < q)%Z ->
  (q * 98 ^ Z.of_nat n <? p * 100 ^ Z.of_nat n)%Z = true ->
  (98 / 100) ^ n < IZR p / IZR q.
Proof.
  intros Hq Hlt. apply Z.ltb_lt in Hlt. apply IZR_lt in Hlt.
  rewrite !mult_IZR in Hlt. rewrite pow98_as_quotient.
  pose proof (pow100_pos n) as H100. apply IZR_lt in Hq.
  apply Rmult_lt_reg_r with (r := IZR q * IZR (100 ^ Z.of_nat n)); [nra |].
  field_simplify; lra.
Qed.

Lemma pow98_341 : 1 / 1000 < (98 / 100) ^ 341.
Proof. apply (pow98_above 341 1 1000); [lia | vm_compute; reflexivity]. Qed.

Lemma pow98_342 : (98 / 100) ^ 342 < 1 / 1000.
Proof. apply (pow98_below 342 1 1000); [lia | vm_compute; reflexivity]. Qed.

Lemma alphaAfter_pow n :
  (n <= 341)%nat -> alphaAfter n = (98 / 100) ^ n.
Proof.
  induction n as [| n IH]; intros Hn.
  - reflexivity.
  - unfold alphaAfter in *. simpl Nat.iter. rewrite IH by lia.
    unfold decayAlpha. unfold_config.
    assert (Hge : (98 / 100) ^ 341 <= (98 / 100) ^ S n)
      by (apply pow_antitone; [lra | lia]).
    pose proof pow98_341 as H341. simpl pow in Hge at 2.
    destruct (Rlt_dec _ _) as [Hlt | _]; simpl; lra.
Qed.

Lemma alphaAfter_342 : alphaAfter 342 = PHYSICS_CONFIG.alpha.min.
Proof.
  change (alphaAfter 342) with (decayAlpha (alphaAfter 341)).
  rewrite alphaAfter_pow by lia.
  unfold decayAlpha. unfold_config.
  pose proof pow98_342 as H. change ((98 / 100) ^ 342) with
    (98 / 100 * (98 / 100) ^ 341) in H.
  destruct (Rlt_dec _ _) as [_ | Hge]; [reflexivity | lra].
Qed.

Lemma decayAlpha_at_floor :
  decayAlpha PHYSICS_CONFIG.alpha.min = PHYSICS_CONFIG.alpha.min.
Proof.
  unfold decayAlpha. unfold_config.
  destruct (Rlt_dec _ _); [reflexivity | lra].
Qed.

Lemma tick_alpha pairForces e sim :
  simulationRef e = Some sim ->
  Simulation.alpha <$> simulationRef (tick pairForces e)
    = Some (decayAlpha (Simulation.alpha sim)).
Proof. intros H. unfold tick. rewrite H. reflexivity. Qed.

Lemma ticks_alpha pairForces n e sim :
  simulationRef e = Some sim ->
  Simulation.alpha <$> simulationRef (Nat.iter n (tick pairForces) e)
    = Some (Nat.iter n decayAlpha (Simulation.alpha sim)).
Proof.
  intros Hsim. induction n as [| n IH]; simpl.
  - rewrite Hsim. reflexivity.
  - apply fmap_Some in IH as (sim' & Hsim' & Halpha).
    rewrite (tick_alpha _ _ _ Hsim'), Halpha. reflexivity.
Qed.

(** ** Reconciliation of the physics objects *)

Section Reconcile.

Variable old : gmap string PhysicsNode.t.

Lemma reconcile_fold (nodes : list IdeaNode.t) acc :
  foldl (reconcileStep old) acc nodes =
    (foldl (fun m node => <[IdeaNode.id node := reconcileObject old node]> m)
           (fst acc) nodes,
     snd acc ++ map IdeaNode.id nodes).
Proof.
  revert acc. induction nodes as [| node nodes IH]; intros acc; simpl.
  - rewrite app_nil_r. destruct acc; reflexivity.
  - rewrite IH. simpl. rewrite <- app_assoc. reflexivity.
Qed.

Lemma reconcile_ids (nodes : list IdeaNode.t) :
  snd (reconcileNodes old nodes) = map IdeaNode.id nodes.
Proof. unfold reconcileNodes. rewrite reconcile_fold. reflexivity. Qed.

Lemma inserts_elsewhere (nodes : list IdeaNode.t)
  (m : gmap string PhysicsNode.t) i :
  i ∉ map IdeaNode.id nodes ->
  foldl (fun m node => <[IdeaNode.id node := reconcileObject old node]> m)
        m nodes !! i = m !! i.
Proof.
  revert m. induction nodes as [| node nodes IH]; intros m Hi; simpl.
  - reflexivity.
  - simpl in Hi. apply not_elem_of_cons in Hi as [Hne Hi].
    rewrite IH by exact Hi. apply lookup_insert_ne. congruence.
Qed.

Lemma inserts_here (nodes : list IdeaNode.t)
  (m : gmap string PhysicsNode.t) node :
  NoDup (map IdeaNode.id nodes) ->
  node ∈ nodes ->
  foldl (fun m node => <[IdeaNode.id node := reconcileObject old node]> m)
        m nodes !! IdeaNode.id node = Some (reconcileObject old node).
Proof.
  revert m. induction nodes as [| n nodes IH]; intros m Hnd Hin; simpl.
  - inversion Hin.
  - simpl in Hnd. apply NoDup_cons in Hnd as [Hfresh Hnd].
    apply elem_of_cons in Hin as [-> | Hin].
    + rewrite inserts_elsewhere by exact Hfresh. apply lookup_insert_eq.
    + apply IH; assumption.
Qed.

Lemma inserts_domain (nodes : list IdeaNode.t)
  (m : gmap string PhysicsNode.t) i :
  is_Some (foldl (fun m node =>
                    <[IdeaNode.id node := reconcileObject old node]> m)
                 m nodes !! i)
  <-> i ∈ map IdeaNode.id nodes \/ is_Some (m !! i).
Proof.
  revert m. induction nodes as [| n nodes IH]; intros m; simpl.
  - split; [auto | intros [H | H]; [inversion H | exact H]].
  - rewrite IH, lookup_insert_is_Some, elem_of_cons.
    destruct (decide (IdeaNode.id n = i)); intuition congruence.
Qed.

Lemma reconcile_absent (nodes : list IdeaNode.t) i :
  i ∉ map IdeaNode.id nodes -> fst (reconcileNodes old nodes) !! i = None.
Proof.
  intros Hi. unfold reconcileNodes. rewrite reconcile_fold. simpl.
  rewrite inserts_elsewhere by exact Hi. apply lookup_empty.
Qed.

Lemma reconcile_present (nodes : list IdeaNode.t) node :
  NoDup (map IdeaNode.id nodes) ->
  node ∈ nodes ->
  fst (reconcileNodes old nodes) !! IdeaNode.id node
    = Some (reconcileObject old node).
Proof.
  intros Hnd Hin. unfold reconcileNodes. rewrite reconcile_fold. simpl.
  now apply inserts_here.
Qed.

Lemma reconcile_domain (nodes : list IdeaNode.t) i :
  is_Some (fst (reconcileNodes old nodes) !! i)
  <-> i ∈ map IdeaNode.id nodes.
Proof.
  unfold reconcileNodes. rewrite reconcile_fold. simpl.
  rewrite inserts_domain, lookup_empty. split; [| auto].
  intros [H | H]; [exact H | destruct H; discriminate].
Qed.

End Reconcile.

(** The link force accepts exactly the link lists whose endpoints are all
    among the nodes. *)
Lemma linkInitialize_ok nodes links :
  Forall (fun l => PhysicsEdge.source l ∈ nodes
                   /\ PhysicsEdge.target l ∈ nodes) links ->
  D3.linkInitialize nodes links = Some links.
Proof.
  intros Hall. unfold D3.linkInitialize. apply mapM_Some_2.
  apply Forall_Forall2_diag. eapply Forall_impl; [exact Hall |].
  intros l [Hs Ht]. unfold D3.resolveLink, D3.find.
  destruct (decide (PhysicsEdge.source l ∈ nodes)); [| contradiction].
  destruct (decide (PhysicsEdge.target l ∈ nodes)); [| contradiction].
  simpl. destruct l; reflexivity.
Qed.

Lemma linkInitialize_throws nodes links l :
  l ∈ links ->
  PhysicsEdge.source l ∉ nodes \/ PhysicsEdge.target l ∉ nodes ->
  D3.linkInitialize nodes links = None.
Proof.
  unfold D3.linkInitialize. intros Hin Hbad.
  destruct (mapM (D3.resolveLink nodes) links) as [k |] eqn:Hm; [| reflexivity].
  exfalso. apply mapM_Some_1 in Hm.
  apply list_elem_of_lookup in Hin as [i Hi].
  destruct (Forall2_lookup_l _ _ _ _ _ Hm Hi) as (y & _ & Hy).
  unfold D3.resolveLink, D3.find in Hy.
  destruct (decide (PhysicsEdge.source l ∈ nodes));
    destruct (decide (PhysicsEdge.target l ∈ nodes));
    simpl in Hy; try discriminate.
  destruct Hbad; contradiction.
Qed.

Lemma physicsEdges_resolve old nodes edges :
  Forall (fun l => PhysicsEdge.source l ∈ map IdeaNode.id nodes
                   /\ PhysicsEdge.target l ∈ map IdeaNode.id nodes)
         (physicsEdgesOf (fst (reconcileNodes old nodes)) edges).
Proof.
  apply Forall_forall. intros l Hl. unfold physicsEdgesOf in Hl.
  apply list_elem_of_fmap in Hl as (edge & -> & Hedge).
  apply list_elem_of_filter in Hedge as [[Hs Ht] _].
  simpl. split; eapply reconcile_domain; eassumption.
Qed.

(** The enabled effect never throws, and this is the engine it leaves. *)
Lemma effect_enabled props e :
  Props.enabled props = true ->
  effect props e =
    Some (mkEngine
            (Some (Simulation.mk
                     (map IdeaNode.id (Props.nodes props))
                     (physicsEdgesOf
                        (fst (reconcileNodes (nodesRef e) (Props.nodes props)))
                        (Props.edges props))
                     (Props.canvasWidth props / 2, Props.canvasHeight props / 2)
                     PHYSICS_CONFIG.alpha.start
                     (match simulationRef e with
                      | Some sim =>
                          if isRunningRef e then Simulation.timer sim else true
                      | None => true
                      end)))
            (fst (reconcileNodes (nodesRef e) (Props.nodes props)))
            true).
Proof.
  intros Hen. unfold effect. rewrite Hen. simpl negb. cbv iota.
  rewrite reconcile_ids.
  rewrite linkInitialize_ok by apply physicsEdges_resolve.
  simpl. destruct (simulationRef e); reflexivity.
Qed.

Lemma physicsEdges_without_dangling old nodes edges :
  physicsEdgesOf (fst (reconcileNodes old nodes)) (withoutDangling nodes edges)
  = physicsEdgesOf (fst (reconcileNodes old nodes)) edges.
Proof.
  unfold physicsEdgesOf, withoutDangling. f_equal.
  apply list_filter_filter_l. intros edge [Hs Ht].
  split; eapply reconcile_domain; eassumption.
Qed.

(** Without the filter the link force would throw on a dangling edge. *)
Remark unfiltered_dangling_edge_throws nodes edges edge :
  edge ∈ edges ->
  dangling nodes edge ->
  D3.linkInitialize (map IdeaNode.id nodes) (map toPhysicsEdge edges) = None.
Proof.
  intros Hin Hd. apply linkInitialize_throws with (l := toPhysicsEdge edge).
  - apply list_elem_of_fmap. eauto.
  - exact Hd.
Qed.

(** C7.  For every edge set the effect completes (the link force never
    throws), and the engine it leaves is the one the edge set without its
    dangling edges gives, so a dangling edge has no influence on any value
    in the engine.  When enabled, every link of the link force has both
    endpoints among the simulation's nodes, the link of an anchored edge is
    there, and the link of a dangling edge is not. *)
Theorem dangling_edges_never_reach_the_link_force (props : Props.t)
  (e : Engine) :
  exists e1,
    effect props e = Some e1
    /\ effect (withEdges (withoutDangling (Props.nodes props)
                                          (Props.edges props)) props) e
       = Some e1
    /\ (Props.enabled props = true ->
        exists sim,
          simulationRef e1 = Some sim
          /\ D3.linkInitialize (Simulation.nodes sim) (Simulation.links sim)
             = Some (Simulation.links sim)
          /\ (forall l, l ∈ Simulation.links sim ->
                PhysicsEdge.source l ∈ Simulation.nodes sim
                /\ PhysicsEdge.target l ∈ Simulation.nodes sim)
          /\ (forall edge, edge ∈ Props.edges props ->
                anchored (Props.nodes props) edge ->
                toPhysicsEdge edge ∈ Simulation.links sim)
          /\ (forall edge, edge ∈ Props.edges props ->
                dangling (Props.nodes props) edge ->
                toPhysicsEdge edge ∉ Simulation.links sim)).
Proof.
  destruct (Props.enabled props) eqn:Hen.
  - eexists. split; [apply effect_enabled; exact Hen |].
    split.
    { rewrite effect_enabled by exact Hen. simpl.
      rewrite physicsEdges_without_dangling. reflexivity. }
    intros _. eexists. split; [reflexivity |]. simpl.
    pose proof (physicsEdges_resolve (nodesRef e) (Props.nodes props)
                  (Props.edges props)) as Hall.
    split; [apply linkInitialize_ok; exact Hall |].
    split; [intros l Hl; exact (proj1 (Forall_forall _ _) Hall l Hl) |].
    split.
    + intros edge Hin [Hs Ht]. unfold physicsEdgesOf.
      apply list_elem_of_fmap. exists edge. split; [reflexivity |].
      apply list_elem_of_filter. split; [| exact Hin].
      split; eapply reconcile_domain; eassumption.
    + intros edge Hin Hd Hl.
      destruct (proj1 (Forall_forall _ _) Hall _ Hl) as [Hs Ht].
      destruct Hd; contradiction.
  - exists (stop e). unfold effect. simpl. rewrite Hen. simpl.
    split; [reflexivity |]. split; [reflexivity |]. discriminate.
Qed.

(** C2 (amended).  The enabled effect, on canonical nodes with pairwise
    distinct ids, leaves a map in which: a node that had an object keeps
    that object's velocity ([vx], [vy]) and id, while its position, radius
    and lock are taken from the canonical record; a node that had none gets
    a new object at the canonical position with zero velocity; an id that
    no canonical node carries has no object.  The simulation gets the
    nodes' ids in canonical order. *)
Theorem reconcile_keeps_velocity_takes_canonical_position (props : Props.t)
  (e : Engine) :
  Props.enabled props = true ->
  NoDup (map IdeaNode.id (Props.nodes props)) ->
  exists e1 sim,
    effect props e = Some e1
    /\ simulationRef e1 = Some sim
    /\ Simulation.nodes sim = map IdeaNode.id (Props.nodes props)
    /\ (forall node p,
          node ∈ Props.nodes props ->
          nodesRef e !! IdeaNode.id node = Some p ->
          exists p',
            nodesRef e1 !! IdeaNode.id node = Some p'
            /\ PhysicsNode.vx p' = PhysicsNode.vx p
            /\ PhysicsNode.vy p' = PhysicsNode.vy p
            /\ PhysicsNode.id p' = PhysicsNode.id p
            /\ PhysicsNode.x p' = IdeaNode.x node
            /\ PhysicsNode.y p' = IdeaNode.y node
            /\ PhysicsNode.radius p' = IdeaNode.radius node
            /\ PhysicsNode.fx p' = fruitLock node (IdeaNode.x node)
            /\ PhysicsNode.fy p' = fruitLock node (IdeaNode.y node))
    /\ (forall node,
          node ∈ Props.nodes props ->
          nodesRef e !! IdeaNode.id node = None ->
          exists p',
            nodesRef e1 !! IdeaNode.id node = Some p'
            /\ p' = convertToPhysicsNode node
            /\ PhysicsNode.x p' = IdeaNode.x node
            /\ PhysicsNode.y p' = IdeaNode.y node
            /\ PhysicsNode.vx p' = 0
            /\ PhysicsNode.vy p' = 0)
    /\ (forall i,
          i ∉ map IdeaNode.id (Props.nodes props) ->
          nodesRef e1 !! i = None).
Proof.
  intros Hen Hnd. eexists. eexists.
  split; [apply effect_enabled; exact Hen |]. simpl.
  split; [reflexivity |]. split; [reflexivity |].
  split; [| split].
  - intros node p Hin Hp. eexists.
    split; [apply reconcile_present; assumption |].
    unfold reconcileObject. rewrite Hp. simpl. repeat split; reflexivity.
  - intros node Hin Hp. eexists.
    split; [apply reconcile_present; assumption |].
    unfold reconcileObject. rewrite Hp. simpl. repeat split; reflexivity.
  - intros i Hi. now apply reconcile_absent.
Qed.

Lemma seedNode_ids_distinct : NoDup (map IdeaNode.id [seedNode]).
Proof. simpl. apply NoDup_singleton. Qed.

Lemma reconcile_keeps_velocity_takes_canonical_position_witness :
  exists e1 sim,
    effect (sampleProps [seedNode] []) emptyEngine = Some e1
    /\ simulationRef e1 = Some sim
    /\ Simulation.nodes sim = ["node_a"%string].
Proof.
  destruct (reconcile_keeps_velocity_takes_canonical_position
              (sampleProps [seedNode] []) emptyEngine eq_refl
              seedNode_ids_distinct)
    as (e1 & sim & He1 & Hsim & Hnodes & _).
  exists e1, sim. auto.
Defined.

(** C2 as stated fails: an object that has drifted to (1, 2) is put back to
    the canonical (0, 0) by the effect; only its velocity (3, 4) is kept. *)
Lemma reconcile_overwrites_shadow_position :
  exists e1 p',
    effect (sampleProps [seedNode] []) driftedEngine = Some e1
    /\ nodesRef driftedEngine !! "node_a"%string = Some driftedObject
    /\ nodesRef e1 !! "node_a"%string = Some p'
    /\ PhysicsNode.x driftedObject = 1 /\ PhysicsNode.y driftedObject = 2
    /\ PhysicsNode.x p' = 0 /\ PhysicsNode.y p' = 0
    /\ PhysicsNode.x p' <> PhysicsNode.x driftedObject
    /\ PhysicsNode.vx p' = 3 /\ PhysicsNode.vy p' = 4.
Proof.
  assert (Hold : nodesRef driftedEngine !! "node_a"%string = Some driftedObject)
    by apply lookup_singleton_eq.
  eexists. eexists.
  split; [apply effect_enabled; reflexivity |].
  split; [exact Hold |].
  split.
  { simpl nodesRef at 1.
    apply (reconcile_present (nodesRef driftedEngine) [seedNode] seedNode
             seedNode_ids_distinct).
    apply list_elem_of_singleton. reflexivity. }
  unfold reconcileObject. change (IdeaNode.id seedNode) with "node_a"%string.
  rewrite Hold. simpl. repeat split; try reflexivity. lra.
Qed.

(** ** Idempotence of the reconciliation *)

Lemma reconcile_fixpoint old nodes :
  NoDup (map IdeaNode.id nodes) ->
  fst (reconcileNodes (fst (reconcileNodes old nodes)) nodes)
  = fst (reconcileNodes old nodes).
Proof.
  intros Hnd. apply map_eq. intros i.
  destruct (decide (i ∈ map IdeaNode.id nodes)) as [Hin | Hout].
  - apply list_elem_of_fmap in Hin as (node & -> & Hin).
    rewrite !reconcile_present by assumption. f_equal.
    unfold reconcileObject at 1.
    rewrite reconcile_present by assumption.
    unfold reconcileObject. destruct (old !! IdeaNode.id node); reflexivity.
  - rewrite !reconcile_absent by assumption. reflexivity.
Qed.

Lemma stop_idempotent e : stop (stop e) = stop e.
Proof.
  unfold stop. destruct (simulationRef e) eqn:Hsim; simpl.
  - reflexivity.
  - rewrite Hsim. reflexivity.
Qed.

Lemma stop_nodesRef e : nodesRef (stop e) = nodesRef e.
Proof. unfold stop. destruct (simulationRef e); reflexivity. Qed.

Lemma stop_timer e :
  match simulationRef (stop e) with
  | Some sim => if isRunningRef (stop e) then Simulation.timer sim else true
  | None => true
  end = true.
Proof.
  unfold stop. destruct (simulationRef e) eqn:Hsim; simpl.
  - reflexivity.
  - rewrite Hsim. reflexivity.
Qed.

(** C4.  Running the reconciliation a second time with the same nodes
    (pairwise distinct ids), edges and canvas size gives back the very
    engine the first run left: the same objects with the same positions and
    velocities, the same simulation nodes and links, the same [alpha] and
    the same running state; this holds for a bare second run of the effect
    and for one preceded by the clean-up. *)
Theorem reconcile_same_sets_idempotent (props : Props.t) (e : Engine) :
  NoDup (map IdeaNode.id (Props.nodes props)) ->
  exists e1,
    rerun props e = Some e1
    /\ rerun props e1 = Some e1
    /\ effect props e1 = Some e1.
Proof.
  intros Hnd. unfold rerun, cleanup.
  destruct (Props.enabled props) eqn:Hen.
  - eexists. split; [apply effect_enabled; exact Hen |].
    rewrite stop_timer, stop_nodesRef.
    split.
    + rewrite effect_enabled by exact Hen.
      rewrite stop_timer, stop_nodesRef. simpl nodesRef.
      rewrite reconcile_fixpoint by exact Hnd. reflexivity.
    + rewrite effect_enabled by exact Hen. simpl.
      rewrite reconcile_fixpoint by exact Hnd. reflexivity.
  - exists (stop e). unfold effect. rewrite Hen. simpl.
    rewrite !stop_idempotent. auto.
Qed.

Lemma reconcile_same_sets_idempotent_witness :
  exists e1,
    rerun (sampleProps [seedNode] []) driftedEngine = Some e1
    /\ rerun (sampleProps [seedNode] []) e1 = Some e1.
Proof.
  destruct (reconcile_same_sets_idempotent (sampleProps [seedNode] [])
              driftedEngine seedNode_ids_distinct) as (e1 & H1 & H2 & _).
  exists e1. auto.
Defined.

(** ** The decay of alpha along the calls, and what resets it *)

Lemma call_keeps_alpha pairForces e sim c :
  simulationRef e = Some sim ->
  keepsAlpha c = true ->
  Simulation.alpha <$> simulationRef (call pairForces e c)
  = Some (match c with
          | Tick => decayAlpha (Simulation.alpha sim)
          | _ => Simulation.alpha sim
          end).
Proof.
  intros Hsim Hc. destruct c; try discriminate; simpl.
  - now apply tick_alpha.
  - unfold setNodePosition. rewrite Hsim.
    destruct (nodesRef e !! nodeId); simpl; rewrite Hsim; reflexivity.
  - unfold pause, stop. rewrite Hsim. reflexivity.
  - unfold resume. rewrite Hsim. destruct enabled; simpl; [| rewrite Hsim];
      reflexivity.
Qed.

Lemma run_keeps_alpha pairForces cs : forall e sim,
  simulationRef e = Some sim ->
  forallb keepsAlpha cs = true ->
  Simulation.alpha <$> simulationRef (run pairForces e cs)
  = Some (Nat.iter (ticksIn cs) decayAlpha (Simulation.alpha sim)).
Proof.
  induction cs as [| c cs IH]; intros e sim Hsim Hcs.
  - simpl. rewrite Hsim. reflexivity.
  - simpl in Hcs. apply andb_true_iff in Hcs as [Hc Hcs].
    pose proof (call_keeps_alpha pairForces e sim c Hsim Hc) as Hcall.
    apply fmap_Some in Hcall as (sim' & Hsim' & Halpha).
    unfold run in *. simpl foldl. rewrite (IH _ sim' Hsim' Hcs).
    rewrite <- Halpha.
    destruct c; try discriminate; simpl ticksIn; try reflexivity.
    rewrite Nat.iter_succ_r. reflexivity.
Qed.

Lemma rerun_resets_alpha props e :
  Props.enabled props = true ->
  exists e1,
    rerun props e = Some e1
    /\ Simulation.alpha <$> simulationRef e1
       = Some PHYSICS_CONFIG.alpha.start.
Proof.
  intros Hen. unfold rerun. rewrite (effect_enabled _ _ Hen).
  eexists. split; reflexivity.
Qed.

(** C5 (amended).  As long as nothing sets [alpha] back to its start value,
    a step never raises it: along any run of steps, [setNodePosition],
    [pause] and [resume] from [alpha = 1] it is the value that the number of
    steps in the run gives, and no such call raises an [alpha] at or above
    the floor.  With decay 0.02 that value is [0.98 ^ n] for the first 341
    steps, all strictly above the floor 0.001, and at or below the floor
    from step 342 on, where [0.98 ^ n] is below it.  Three things set
    [alpha] back to its start value: every run of the enabled effect, which
    needs no call of [reheat] for it, [reheat] itself, and
    [setNodeVelocity] on an object of the store. *)
Theorem alpha_reaches_floor_at_tick_342 :
  (forall pairForces e sim cs,
     simulationRef e = Some sim ->
     Simulation.alpha sim = PHYSICS_CONFIG.alpha.start ->
     forallb keepsAlpha cs = true ->
     Simulation.alpha <$> simulationRef (run pairForces e cs)
       = Some (alphaAfter (ticksIn cs)))
  /\
  (forall pairForces e sim c,
     simulationRef e = Some sim ->
     PHYSICS_CONFIG.alpha.min <= Simulation.alpha sim ->
     keepsAlpha c = true ->
     exists sim',
       simulationRef (call pairForces e c) = Some sim'
       /\ Simulation.alpha sim' <= Simulation.alpha sim)
  /\ (forall n, alphaAfter (S n) <= alphaAfter n)
  /\ (forall n, (n <= 341)%nat ->
        alphaAfter n = (98 / 100) ^ n
        /\ PHYSICS_CONFIG.alpha.min < alphaAfter n)
  /\ (forall n, (342 <= n)%nat ->
        alphaAfter n <= PHYSICS_CONFIG.alpha.min
        /\ (98 / 100) ^ n < PHYSICS_CONFIG.alpha.min)
  /\ (forall props e,
        Props.enabled props = true ->
        exists e1,
          rerun props e = Some e1
          /\ Simulation.alpha <$> simulationRef e1
             = Some PHYSICS_CONFIG.alpha.start)
  /\ (forall e sim nodeId vx vy,
        simulationRef e = Some sim ->
        Simulation.alpha <$> simulationRef (reheat e)
        = Some PHYSICS_CONFIG.alpha.start
        /\ (is_Some (nodesRef e !! nodeId) ->
            Simulation.alpha <$> simulationRef (setNodeVelocity nodeId vx vy e)
            = Some PHYSICS_CONFIG.alpha.start)).
Proof.
  split; [| split; [| split; [| split; [| split; [| split]]]]].
  - intros pf e sim cs Hsim Hstart Hcs.
    rewrite (run_keeps_alpha pf cs e sim Hsim Hcs), Hstart. reflexivity.
  - intros pf e sim c Hsim Ha Hc.
    pose proof (call_keeps_alpha pf e sim c Hsim Hc) as Hcall.
    apply fmap_Some in Hcall as (sim' & Hsim' & Halpha).
    exists sim'. split; [exact Hsim' |]. rewrite <- Halpha.
    destruct c; try lra. now apply decayAlpha_bounds.
  - intros n. change (alphaAfter (S n)) with (decayAlpha (alphaAfter n)).
    apply decayAlpha_bounds, alphaAfter_floor.
  - intros n Hn. rewrite alphaAfter_pow by exact Hn.
    split; [reflexivity |].
    assert (Hge : (98 / 100) ^ 341 <= (98 / 100) ^ n)
      by (apply pow_antitone; [lra | lia]).
    pose proof pow98_341. unfold_config. lra.
  - intros n Hn. split.
    + induction Hn as [| n Hn IH].
      * rewrite alphaAfter_342. lra.
      * change (alphaAfter (S n)) with (decayAlpha (alphaAfter n)).
        pose proof (decayAlpha_bounds (alphaAfter n) (alphaAfter_floor n)).
        lra.
    + assert (Hle : (98 / 100) ^ n <= (98 / 100) ^ 342)
        by (apply pow_antitone; [lra | exact Hn]).
      pose proof pow98_342. unfold_config. lra.
  - intros props e Hen. now apply rerun_resets_alpha.
  - intros e sim nodeId vx vy Hsim. split.
    + unfold reheat. rewrite Hsim. destruct (isRunningRef e); reflexivity.
    + intros [p Hp]. unfold setNodeVelocity. rewrite Hp, Hsim.
      unfold reheat. simpl. rewrite Hsim.
      destruct (isRunningRef e); reflexivity.
Qed.

(** C5 as stated fails twice.  [alpha] rises with no call of [reheat]: a
    step takes it from 1 to 0.98, and the run of the effect that follows
    sets it to 1 again.  And left to decay, after 150 steps from
    [alpha = 1] it is still above 0.04, forty times the floor, and after
    300 steps still above the floor. *)
Lemma alpha_rises_on_rerun_and_outlasts_150_ticks :
  (exists e1,
     rerun (sampleProps [seedNode] []) (tick noPairForces driftedEngine)
     = Some e1
     /\ Simulation.alpha <$> simulationRef (tick noPairForces driftedEngine)
        = Some (98 / 100)
     /\ Simulation.alpha <$> simulationRef e1 = Some 1)
  /\ 4 / 100 < alphaAfter 150
  /\ PHYSICS_CONFIG.alpha.min < alphaAfter 300.
Proof.
  split.
  - destruct (rerun_resets_alpha (sampleProps [seedNode] [])
                (tick noPairForces driftedEngine) eq_refl) as (e1 & He1 & Ha).
    exists e1. split; [exact He1 |]. split; [| exact Ha].
    rewrite (tick_alpha noPairForces driftedEngine _ eq_refl).
    f_equal. unfold decayAlpha. unfold_config. simpl.
    destruct (Rlt_dec _ _); lra.
  - rewrite !alphaAfter_pow by lia. split.
    + apply (pow98_above 150 4 100); [lia | vm_compute; reflexivity].
    + pose proof pow98_341.
      assert ((98 / 100) ^ 341 <= (98 / 100) ^ 300)
        by (apply pow_antitone; [lra | lia]).
      unfold_config. lra.
Qed.

(** ** Pinned objects *)

Lemma heldAt_pinnedAt px py n : heldAt px py n -> pinnedAt px py n.
Proof. intros [H _]. exact H. Qed.

Lemma integrate_holds f px py n :
  pinnedAt px py n -> heldAt px py (integrate f n).
Proof.
  intros [Hx Hy]. unfold heldAt, pinnedAt, integrate, integrateAxis.
  rewrite Hx, Hy. simpl. auto.
Qed.

Section AlterAll.

Variable move : PhysicsNode.t -> PhysicsNode.t.

(** A property that [move] preserves survives the pass over the ids. *)
Lemma alter_all_preserves (P : PhysicsNode.t -> Prop) j ids
  (m : gmap string PhysicsNode.t) n :
  (forall n, P n -> P (move n)) ->
  m !! j = Some n -> P n ->
  exists n', foldl (fun m i => alter move i m) m ids !! j = Some n' /\ P n'.
Proof.
  intros Hmove. revert m n.
  induction ids as [| i ids IH]; intros m n Hm HP; simpl.
  - eauto.
  - destruct (decide (i = j)) as [-> | Hne].
    + apply (IH _ (move n)); [| auto].
      rewrite lookup_alter_eq, Hm. reflexivity.
    + apply (IH _ n); [| exact HP].
      rewrite lookup_alter_ne by exact Hne. exact Hm.
Qed.

(** If [move] takes [P] to [Q] and preserves [Q], an object with [P]
    that the pass visits ends with [Q]. *)
Lemma alter_all_establishes (P Q : PhysicsNode.t -> Prop) j ids
  (m : gmap string PhysicsNode.t) n :
  (forall n, P n -> Q (move n)) ->
  (forall n, Q n -> Q (move n)) ->
  j ∈ ids ->
  m !! j = Some n -> P n ->
  exists n', foldl (fun m i => alter move i m) m ids !! j = Some n' /\ Q n'.
Proof.
  intros HPQ HQ. revert m n.
  induction ids as [| i ids IH]; intros m n Hin Hm HP; simpl.
  - inversion Hin.
  - destruct (decide (i = j)) as [-> | Hne].
    + apply (alter_all_preserves Q j ids _ (move n)); [exact HQ | | auto].
      rewrite lookup_alter_eq, Hm. reflexivity.
    + apply elem_of_cons in Hin as [-> | Hin]; [contradiction |].
      apply (IH _ n); [exact Hin | | exact HP].
      rewrite lookup_alter_ne by exact Hne. exact Hm.
Qed.

End AlterAll.

Section Pinned.

Variable pairForces :
  R -> list PhysicsEdge.t -> list PhysicsNode.t -> PhysicsNode.t -> R * R.
Variable i : string.
Variables px py : R.

(** A step holds every pinned object of the simulation at its pin. *)
Lemma tick_holds e :
  simulated (pinnedAt px py) i e ->
  simulated (heldAt px py) i (tick pairForces e).
Proof.
  intros (sim & n & Hsim & Hin & Hn & Hpin). unfold tick. rewrite Hsim.
  set (move := fun n => integrate _ n).
  destruct (alter_all_establishes move (pinnedAt px py) (heldAt px py) i
              (Simulation.nodes sim) (nodesRef e) n) as (n' & Hn' & Hheld);
    try assumption.
  - intros n0. apply integrate_holds.
  - intros n0 Hh. apply integrate_holds, heldAt_pinnedAt, Hh.
  - exists (Simulation.mk (Simulation.nodes sim) (Simulation.links sim)
              (Simulation.center sim) (decayAlpha (Simulation.alpha sim))
              (if (if Rlt_dec (Simulation.alpha sim
                               * (1 - PHYSICS_CONFIG.alpha.decay))
                              PHYSICS_CONFIG.alpha.min
                   then true else false)
               then false else Simulation.timer sim)), n'.
    simpl. auto.
Qed.

Lemma reheat_pinned e :
  simulated (pinnedAt px py) i e -> simulated (pinnedAt px py) i (reheat e).
Proof.
  intros (sim & n & Hsim & Hin & Hn & Hpin). unfold reheat. rewrite Hsim.
  destruct (isRunningRef e); eexists; eexists; simpl; eauto.
Qed.

Lemma stop_pinned e :
  simulated (pinnedAt px py) i e -> simulated (pinnedAt px py) i (stop e).
Proof.
  intros (sim & n & Hsim & Hin & Hn & Hpin). unfold stop. rewrite Hsim.
  eexists; eexists; simpl; eauto.
Qed.

Lemma resume_pinned enabled e :
  simulated (pinnedAt px py) i e ->
  simulated (pinnedAt px py) i (resume enabled e).
Proof.
  intros (sim & n & Hsim & Hin & Hn & Hpin). unfold resume. rewrite Hsim.
  destruct enabled; eexists; eexists; simpl; eauto.
Qed.

(** [setNodePosition] and [setNodeVelocity] leave the lock fields of
    every object as they were. *)
Lemma setNodePosition_pinned nodeId x y e :
  simulated (pinnedAt px py) i e ->
  simulated (pinnedAt px py) i (setNodePosition nodeId x y e).
Proof.
  intros (sim & n & Hsim & Hin & Hn & Hpin). unfold setNodePosition.
  rewrite Hsim. destruct (nodesRef e !! nodeId) as [node |] eqn:Hnode.
  - destruct (decide (nodeId = i)) as [-> | Hne].
    + rewrite Hn in Hnode. injection Hnode as <-.
      eexists; eexists. simpl. rewrite lookup_insert_eq.
      repeat split; eauto; apply Hpin.
    + eexists; eexists. simpl. rewrite lookup_insert_ne by exact Hne.
      eauto.
  - eexists; eexists; eauto.
Qed.

Lemma setNodeVelocity_pinned nodeId vx vy e :
  simulated (pinnedAt px py) i e ->
  simulated (pinnedAt px py) i (setNodeVelocity nodeId vx vy e).
Proof.
  intros (sim & n & Hsim & Hin & Hn & Hpin). unfold setNodeVelocity.
  rewrite Hsim. destruct (nodesRef e !! nodeId) as [node |] eqn:Hnode.
  - apply reheat_pinned.
    destruct (decide (nodeId = i)) as [-> | Hne].
    + rewrite Hn in Hnode. injection Hnode as <-.
      eexists; eexists. simpl. rewrite lookup_insert_eq.
      repeat split; eauto; apply Hpin.
    + eexists; eexists. simpl. rewrite lookup_insert_ne by exact Hne.
      eauto.
  - eexists; eexists; eauto.
Qed.

Lemma simulated_weaken (P Q : PhysicsNode.t -> Prop) e :
  (forall n, P n -> Q n) -> simulated P i e -> simulated Q i e.
Proof.
  intros HPQ (sim & n & Hsim & Hin & Hn & HP).
  exists sim, n. auto.
Qed.

Lemma call_pinned e c :
  simulated (pinnedAt px py) i e ->
  simulated (pinnedAt px py) i (call pairForces e c).
Proof.
  intros H. destruct c; simpl.
  - eapply simulated_weaken; [apply heldAt_pinnedAt | now apply tick_holds].
  - now apply setNodePosition_pinned.
  - now apply setNodeVelocity_pinned.
  - now apply reheat_pinned.
  - now apply stop_pinned.
  - now apply resume_pinned.
Qed.

Lemma run_pinned calls e :
  simulated (pinnedAt px py) i e ->
  simulated (pinnedAt px py) i (run pairForces e calls).
Proof.
  revert e. induction calls as [| c calls IH]; intros e H; simpl.
  - exact H.
  - apply IH. now apply call_pinned.
Qed.

(** After any calls, a step leaves a pinned object held at its pin. *)
Lemma run_then_tick_holds calls e :
  simulated (pinnedAt px py) i e ->
  simulated (heldAt px py) i (run pairForces e (calls ++ [Tick])).
Proof.
  intros H. unfold run. rewrite foldl_app. simpl.
  apply tick_holds. now apply run_pinned.
Qed.

End Pinned.

(** The effect pins the fruit nodes at their canonical position. *)
Lemma effect_pins_fruit props e node :
  Props.enabled props = true ->
  NoDup (map IdeaNode.id (Props.nodes props)) ->
  node ∈ Props.nodes props ->
  IdeaNode.status node = FRUIT ->
  exists e1,
    effect props e = Some e1
    /\ simulated (pinnedAt (IdeaNode.x node) (IdeaNode.y node))
                 (IdeaNode.id node) e1.
Proof.
  intros Hen Hnd Hin Hfruit. eexists.
  split; [apply effect_enabled; exact Hen |].
  eexists. eexists. simpl.
  split; [reflexivity |].
  split; [apply list_elem_of_fmap; eauto |].
  split; [apply reconcile_present; assumption |].
  unfold pinnedAt, reconcileObject, updateExisting, convertToPhysicsNode,
    fruitLock.
  destruct (nodesRef e !! IdeaNode.id node); simpl;
    destruct (decide (IdeaNode.status node = FRUIT)); auto; contradiction.
Qed.

(** What [setNodePosition] does to the object it is called on. *)
Lemma setNodePosition_writes nodeId x y e sim p :
  simulationRef e = Some sim ->
  nodesRef e !! nodeId = Some p ->
  nodesRef (setNodePosition nodeId x y e) !! nodeId
  = Some (PhysicsNode.mk (PhysicsNode.id p) x y 0 0 (PhysicsNode.radius p)
                         (PhysicsNode.fx p) (PhysicsNode.fy p)).
Proof.
  intros Hsim Hp. unfold setNodePosition. rewrite Hp, Hsim. simpl.
  apply lookup_insert_eq.
Qed.

(** C1 (amended).  A node whose status is 'fruit' is pinned by the effect at
    its canonical position, and from then on every step leaves its object
    exactly there with zero velocity, whatever calls of [setNodePosition],
    [setNodeVelocity], [reheat], [pause], [resume] and earlier steps came
    in between.  [setNodePosition] itself pins nothing: it writes the
    position and a zero velocity and leaves the lock fields [fx], [fy] as
    they were. *)
Theorem fruit_nodes_hold_their_position :
  (forall pairForces props e node calls,
     Props.enabled props = true ->
     NoDup (map IdeaNode.id (Props.nodes props)) ->
     node ∈ Props.nodes props ->
     IdeaNode.status node = FRUIT ->
     exists e1 p,
       effect props e = Some e1
       /\ nodesRef (run pairForces e1 (calls ++ [Tick])) !! IdeaNode.id node
          = Some p
       /\ PhysicsNode.x p = IdeaNode.x node
       /\ PhysicsNode.y p = IdeaNode.y node
       /\ PhysicsNode.vx p = 0
       /\ PhysicsNode.vy p = 0)
  /\ (forall nodeId x y e sim p,
        simulationRef e = Some sim ->
        nodesRef e !! nodeId = Some p ->
        exists p',
          nodesRef (setNodePosition nodeId x y e) !! nodeId = Some p'
          /\ PhysicsNode.x p' = x /\ PhysicsNode.y p' = y
          /\ PhysicsNode.vx p' = 0 /\ PhysicsNode.vy p' = 0
          /\ PhysicsNode.fx p' = PhysicsNode.fx p
          /\ PhysicsNode.fy p' = PhysicsNode.fy p).
Proof.
  split.
  - intros pairForces props e node calls Hen Hnd Hin Hfruit.
    destruct (effect_pins_fruit props e node Hen Hnd Hin Hfruit)
      as (e1 & He1 & Hpin).
    destruct (run_then_tick_holds pairForces _ _ _ calls e1 Hpin)
      as (sim & p & _ & _ & Hp & _ & Hx & Hy & Hvx & Hvy).
    exists e1, p. repeat split; assumption.
  - intros nodeId x y e sim p Hsim Hp. eexists.
    split; [eapply setNodePosition_writes; eassumption |].
    simpl. repeat split; reflexivity.
Qed.

Lemma fruitNode_ids_distinct : NoDup (map IdeaNode.id [seedNode; fruitNode]).
Proof.
  simpl. apply NoDup_cons. split.
  - intros H. apply list_elem_of_singleton in H. discriminate.
  - apply NoDup_singleton.
Qed.

Lemma fruit_nodes_hold_their_position_witness :
  exists e1 p,
    effect (sampleProps [seedNode; fruitNode] []) emptyEngine = Some e1
    /\ nodesRef (run noPairForces e1
                   ([SetNodePosition "node_b" 7 7; Tick; Reheat] ++ [Tick]))
         !! "node_b"%string = Some p
    /\ PhysicsNode.x p = 100 /\ PhysicsNode.y p = 50.
Proof.
  destruct (proj1 fruit_nodes_hold_their_position noPairForces
              (sampleProps [seedNode; fruitNode] []) emptyEngine fruitNode
              [SetNodePosition "node_b" 7 7; Tick; Reheat]
              eq_refl fruitNode_ids_distinct)
    as (e1 & p & He1 & Hp & Hx & Hy & _).
  - apply list_elem_of_In. simpl. auto.
  - reflexivity.
  - exists e1, p. repeat split; assumption.
Defined.

(** C1 as stated fails for a node that is only being dragged: after
    [setNodePosition] has put the seed node at (10, 10), the next step
    moves it to (21.7, 18.7) under the centering force alone. *)
Lemma dragged_node_is_displaced_by_the_step :
  exists e1 p,
    effect (sampleProps [seedNode] []) emptyEngine = Some e1
    /\ nodesRef (tick noPairForces (setNodePosition "node_a" 10 10 e1))
         !! "node_a"%string = Some p
    /\ PhysicsNode.fx p = None /\ PhysicsNode.fy p = None
    /\ PhysicsNode.x p = 217 / 10 /\ PhysicsNode.y p = 187 / 10
    /\ PhysicsNode.x p <> 10.
Proof.
  eexists. eexists.
  split; [apply effect_enabled; reflexivity |].
  unfold setNodePosition, tick. simpl.
  unfold reconcileNodes. simpl.
  rewrite lookup_insert_eq. simpl.
  rewrite lookup_insert_eq. simpl.
  rewrite lookup_alter_eq, lookup_insert_eq. simpl.
  split; [reflexivity |]. simpl.
  unfold reconcileObject. rewrite lookup_empty. simpl.
  unfold_config.
  repeat split; try reflexivity; lra.
Qed.

(** * Further properties of the sources *)

(** ** Camera *)

(** X1.  For a camera with a non-zero scale, [screenToWorld] and the stage
    transform are inverse to each other, in both directions. *)
Theorem camera_round_trip (cam : CameraState.t) (p : R * R) :
  CameraState.scale cam <> 0 ->
  (let w := screenToWorld cam (fst p) (snd p) in
   stageToScreen cam (fst w) (snd w) = p)
  /\ (let q := stageToScreen cam (fst p) (snd p) in
      screenToWorld cam (fst q) (snd q) = p).
Proof.
  intros Hs. unfold screenToWorld, stageToScreen. simpl.
  split; apply injective_projections; simpl; field; exact Hs.
Qed.

Lemma camera_round_trip_witness :
  let cam := CameraState.mk 2 30 (-10) in
  let w := screenToWorld cam 100 50 in
  stageToScreen cam (fst w) (snd w) = (100, 50).
Proof.
  intros cam w.
  assert (Hs : CameraState.scale cam <> 0) by (simpl; lra).
  exact (proj1 (camera_round_trip cam (100, 50) Hs)).
Defined.

Lemma zoom_scale_in_range factor centerX centerY s :
  1 / 10 <= CameraState.scale (camera (zoom factor centerX centerY s)) <= 5.
Proof.
  unfold zoom. simpl. rewrite max_min_is_clamp by lra.
  apply clamp_in_range. lra.
Qed.

Lemma cameraAct_frame s a :
  nodes (cameraAct s a) = nodes s
  /\ edges (cameraAct s a) = edges s
  /\ dragSpawn (cameraAct s a) = dragSpawn s
  /\ selectedNodeId (cameraAct s a) = selectedNodeId s
  /\ canvasWidth (cameraAct s a) = canvasWidth s
  /\ canvasHeight (cameraAct s a) = canvasHeight s.
Proof. destruct a; simpl; repeat split; reflexivity. Qed.

(** X2.  From a camera whose scale is within [0.1, 5], no sequence of
    [pan], [zoom] (any factor, any pivot) and [resetCamera] takes the scale
    out of [0.1, 5]; the graph, the selection and the canvas size are never
    touched by them. *)
Theorem camera_scale_stays_in_range (s : IdeaState)
  (actions : list CameraAction) :
  1 / 10 <= CameraState.scale (camera s) <= 5 ->
  let s' := foldl cameraAct s actions in
  1 / 10 <= CameraState.scale (camera s') <= 5
  /\ nodes s' = nodes s
  /\ edges s' = edges s
  /\ selectedNodeId s' = selectedNodeId s
  /\ canvasWidth s' = canvasWidth s
  /\ canvasHeight s' = canvasHeight s.
Proof.
  revert s. induction actions as [| a actions IH]; intros s Hs; simpl.
  - repeat split; try reflexivity; apply Hs.
  - destruct (cameraAct_frame s a) as (Hn & He & _ & Hsel & Hw & Hh).
    assert (Hs' : 1 / 10 <= CameraState.scale (camera (cameraAct s a)) <= 5).
    { destruct a; simpl.
      - exact Hs.
      - exact (zoom_scale_in_range factor centerX centerY s).
      - lra. }
    specialize (IH (cameraAct s a) Hs'). simpl in IH.
    rewrite Hn, He, Hsel, Hw, Hh in IH. exact IH.
Qed.

Lemma camera_scale_stays_in_range_witness :
  let s' := foldl cameraAct (initialState 800 600)
              [Zoom 100 None None; Pan 5 5; Zoom (-3) (Some 1) (Some 2);
               ResetCamera; Zoom 0 None None] in
  1 / 10 <= CameraState.scale (camera s') <= 5.
Proof.
  intros s'.
  assert (Hs : 1 / 10 <= CameraState.scale (camera (initialState 800 600)) <= 5)
    by (simpl; lra).
  exact (proj1 (camera_scale_stays_in_range (initialState 800 600)
                  [Zoom 100 None None; Pan 5 5; Zoom (-3) (Some 1) (Some 2);
                   ResetCamera; Zoom 0 None None] Hs)).
Defined.

(** X3.  [pan] leaves the scale alone and moves the screen position of
    every world point by exactly [(dx, dy)]; two pans in a row move it by
    the sum of the two displacements. *)
Theorem pan_shifts_the_screen (dx dy dx' dy' wx wy : R) (s : IdeaState) :
  CameraState.scale (camera (pan dx dy s)) = CameraState.scale (camera s)
  /\ stageToScreen (camera (pan dx dy s)) wx wy
     = (fst (stageToScreen (camera s) wx wy) + dx,
        snd (stageToScreen (camera s) wx wy) + dy)
  /\ stageToScreen (camera (pan dx' dy' (pan dx dy s))) wx wy
     = stageToScreen (camera (pan (dx + dx') (dy + dy') s)) wx wy.
Proof.
  unfold pan, stageToScreen. simpl.
  split; [reflexivity |]. split; f_equal; ring.
Qed.

Lemma zoom_twice (f1 f2 : R) (centerX centerY : option R) (s : IdeaState) :
  1 / 10 <= CameraState.scale (camera s) * f1 <= 5 ->
  1 / 10 <= CameraState.scale (camera s) * f1 * f2 <= 5 ->
  let cam2 := camera (zoom f2 centerX centerY (zoom f1 centerX centerY s)) in
  let cam12 := camera (zoom (f1 * f2) centerX centerY s) in
  CameraState.scale cam2 = CameraState.scale (camera s) * f1 * f2
  /\ CameraState.scale cam2 = CameraState.scale cam12
  /\ CameraState.offsetX cam2 = CameraState.offsetX cam12
  /\ CameraState.offsetY cam2 = CameraState.offsetY cam12.
Proof.
  intros H1 H2. unfold zoom. simpl.
  set (sc := CameraState.scale (camera s)) in *.
  assert (Hsc : sc <> 0) by (intros E; rewrite E in H1; lra).
  assert (E1 : Rmax (1 / 10) (Rmin 5 (sc * f1)) = sc * f1).
  { rewrite max_min_is_clamp by lra. unfold clamp.
    destruct (Rlt_dec _ _); [lra |]. destruct (Rlt_dec _ _); lra. }
  rewrite E1.
  assert (E2 : Rmax (1 / 10) (Rmin 5 (sc * f1 * f2)) = sc * f1 * f2).
  { rewrite max_min_is_clamp by lra. unfold clamp.
    destruct (Rlt_dec _ _); [lra |]. destruct (Rlt_dec _ _); lra. }
  rewrite E2. replace (sc * (f1 * f2)) with (sc * f1 * f2) by ring.
  rewrite E2.
  assert (Hf1 : sc * f1 <> 0) by lra.
  assert (Hf : f1 <> 0) by (intros E; rewrite E in Hf1; lra).
  repeat split; try reflexivity; field; repeat split; assumption.
Qed.

(** X4.  Two zooms about the same pivot compose: when neither product
    leaves [0.1, 5], zooming by [f1] and then by [f2] leaves the very
    camera that one zoom by [f1 * f2] leaves. *)
Theorem zoom_composes (f1 f2 : R) (centerX centerY : option R)
  (s : IdeaState) :
  1 / 10 <= CameraState.scale (camera s) * f1 <= 5 ->
  1 / 10 <= CameraState.scale (camera s) * f1 * f2 <= 5 ->
  let cam2 := camera (zoom f2 centerX centerY (zoom f1 centerX centerY s)) in
  let cam12 := camera (zoom (f1 * f2) centerX centerY s) in
  CameraState.scale cam2 = CameraState.scale cam12
  /\ CameraState.offsetX cam2 = CameraState.offsetX cam12
  /\ CameraState.offsetY cam2 = CameraState.offsetY cam12.
Proof.
  intros H1 H2. exact (proj2 (zoom_twice f1 f2 centerX centerY s H1 H2)).
Qed.

Lemma zoom_composes_witness :
  let s := initialState 800 600 in
  CameraState.scale (camera (zoom (1 / 2) None None (zoom 3 None None s)))
  = CameraState.scale (camera (zoom (3 * (1 / 2)) None None s)).
Proof.
  intros s.
  assert (H1 : 1 / 10 <= CameraState.scale (camera s) * 3 <= 5)
    by (simpl; lra).
  assert (H2 : 1 / 10 <= CameraState.scale (camera s) * 3 * (1 / 2) <= 5)
    by (simpl; lra).
  exact (proj1 (zoom_composes 3 (1 / 2) None None s H1 H2)).
Defined.

(** X5.  The toolbar's zoom-in (factor 1.2) followed by its zoom-out
    (factor 0.8) does not give back the scale: when neither step is
    clamped the scale ends at 0.96 of what it was, and the camera is the one a single
    zoom by 0.96 about the viewport center leaves. *)
Theorem toolbar_zoom_in_then_out (s : IdeaState) :
  1 / 10 <= CameraState.scale (camera s) * (96 / 100) ->
  CameraState.scale (camera s) * (12 / 10) <= 5 ->
  let cam' := camera (handleZoomOut (handleZoomIn s)) in
  let cam96 := camera (zoom (96 / 100) None None s) in
  CameraState.scale cam' = 96 / 100 * CameraState.scale (camera s)
  /\ CameraState.scale cam' = CameraState.scale cam96
  /\ CameraState.offsetX cam' = CameraState.offsetX cam96
  /\ CameraState.offsetY cam' = CameraState.offsetY cam96.
Proof.
  intros Hlo Hhi.
  assert (H1 : 1 / 10 <= CameraState.scale (camera s) * (12 / 10) <= 5)
    by lra.
  assert (H2 : 1 / 10
               <= CameraState.scale (camera s) * (12 / 10) * (8 / 10) <= 5)
    by lra.
  destruct (zoom_twice (12 / 10) (8 / 10) None None s H1 H2)
    as (Hs & Hs' & Hx & Hy).
  unfold handleZoomOut, handleZoomIn. simpl.
  replace (96 / 100) with (12 / 10 * (8 / 10)) by field.
  simpl in Hs, Hs', Hx, Hy.
  split; [rewrite Hs; field |]. split; [exact Hs' |].
  split; [exact Hx | exact Hy].
Qed.

Lemma toolbar_zoom_in_then_out_witness :
  CameraState.scale (camera (handleZoomOut (handleZoomIn (initialState 800 600))))
  = 96 / 100 * 1.
Proof.
  assert (Hlo : 1 / 10
                <= CameraState.scale (camera (initialState 800 600))
                   * (96 / 100)) by (simpl; lra).
  assert (Hhi : CameraState.scale (camera (initialState 800 600)) * (12 / 10)
                <= 5) by (simpl; lra).
  exact (proj1 (toolbar_zoom_in_then_out (initialState 800 600) Hlo Hhi)).
Defined.

(** ** Store *)


Lemma map_ids_merge id u (l : list IdeaNode.t) :
  NodeUpdates.id u = None ->
  map IdeaNode.id
      (map (fun node =>
              if decide (IdeaNode.id node = id) then mergeNode node u
              else node) l)
  = map IdeaNode.id l.
Proof.
  intros Hu. induction l as [| n l IH]; simpl; [reflexivity |].
  rewrite IH. f_equal.
  destruct (decide (IdeaNode.id n = id)); [| reflexivity].
  unfold mergeNode. rewrite Hu. reflexivity.
Qed.


Lemma filter_other_ids id (l : list IdeaNode.t) :
  id ∉ map IdeaNode.id l ->
  filter (fun node => IdeaNode.id node <> id) l = l.
Proof.
  intros Hout. induction l as [| n l IH]; [reflexivity |].
  simpl in Hout. apply not_elem_of_cons in Hout as [Hne Hout].
  rewrite filter_cons_True by congruence. rewrite IH by exact Hout.
  reflexivity.
Qed.

Lemma filter_free_edges id (l : list IdeaEdge.t) :
  (forall e, e ∈ l -> IdeaEdge.sourceId e <> id /\ IdeaEdge.targetId e <> id) ->
  filter (fun edge => IdeaEdge.sourceId edge <> id
                      /\ IdeaEdge.targetId edge <> id) l = l.
Proof.
  intros Hfree. induction l as [| e l IH]; [reflexivity |].
  rewrite filter_cons_True by (apply Hfree; left).
  rewrite IH; [reflexivity |]. intros e' He'. apply Hfree. now right.
Qed.

(** X7.  Removing the node that [addNode] has just added gives back the
    state from before the addition, provided the generated id was new: no
    node carried it, no edge named it and it was not the selection. *)
Theorem removeNode_undoes_addNode (env : Env) (d : NodeData.t)
  (s : IdeaState) :
  generateId env ∉ map IdeaNode.id (nodes s) ->
  (forall e, e ∈ edges s ->
     IdeaEdge.sourceId e <> generateId env
     /\ IdeaEdge.targetId e <> generateId env) ->
  selectedNodeId s <> Some (generateId env) ->
  removeNode (fst (addNode env d s)) (snd (addNode env d s)) = s.
Proof.
  intros Hfresh Hedges Hsel. unfold addNode, removeNode. simpl.
  rewrite filter_app, filter_other_ids by exact Hfresh.
  rewrite filter_cons_False by (simpl; intros H; apply H; reflexivity).
  rewrite filter_nil, app_nil_r.
  rewrite filter_free_edges by exact Hedges.
  destruct (decide (selectedNodeId s = Some (generateId env)));
    [contradiction |].
  destruct s; reflexivity.
Qed.

Lemma removeNode_undoes_addNode_witness :
  let s := initialState 800 600 in
  let d := NodeData.mk "idea" 10 20 None None None None None in
  removeNode (fst (addNode sampleEnv d s)) (snd (addNode sampleEnv d s)) = s.
Proof.
  intros s d. apply (removeNode_undoes_addNode sampleEnv d s).
  - simpl. apply not_elem_of_nil.
  - simpl. intros e He. inversion He.
  - simpl. discriminate.
Defined.

(** X8.  Distinct node ids stay distinct: [addNode] keeps them so when the
    generated id is new (it does not check), [removeNode] always does, and
    [updateNode] with updates that carry no id leaves the list of ids as it
    is. *)
Theorem node_ids_stay_distinct (s : IdeaState) :
  NoDup (map IdeaNode.id (nodes s)) ->
  (forall env d,
     generateId env ∉ map IdeaNode.id (nodes s) ->
     NoDup (map IdeaNode.id (nodes (snd (addNode env d s)))))
  /\ (forall id, NoDup (map IdeaNode.id (nodes (removeNode id s))))
  /\ (forall id u,
        NodeUpdates.id u = None ->
        map IdeaNode.id (nodes (updateNode id u s))
        = map IdeaNode.id (nodes s)).
Proof.
  intros Hnd. split; [| split].
  - intros env d Hfresh. unfold addNode. simpl.
    rewrite map_app. simpl. apply NoDup_app. split; [exact Hnd |].
    split; [| apply NoDup_singleton].
    intros i Hi Hi'. apply list_elem_of_singleton in Hi'. subst i.
    contradiction.
  - intros id. unfold removeNode. simpl.
    eapply sublist_NoDup; [exact Hnd |].
    apply (fmap_sublist IdeaNode.id). apply sublist_filter.
  - intros id u Hu. unfold updateNode. simpl. now apply map_ids_merge.
Qed.

Lemma node_ids_stay_distinct_witness :
  let s := set_nodes [seedNode; fruitNode] (initialState 800 600) in
  let s1 := snd (addNode sampleEnv
                   (NodeData.mk "idea" 10 20 None None None None None) s) in
  map IdeaNode.id (nodes s1)
  = ["node_a"; "node_b"; "node_1700000000000_k3j9x2m1q"]%string
  /\ NoDup (map IdeaNode.id (nodes s1))
  /\ NoDup (map IdeaNode.id (nodes (removeNode "node_a" s))).
Proof.
  intros s s1.
  assert (Hnd : NoDup (map IdeaNode.id (nodes s))).
  { simpl. apply NoDup_cons. split.
    - intros H. apply list_elem_of_singleton in H. discriminate.
    - apply NoDup_singleton. }
  destruct (node_ids_stay_distinct s Hnd) as (Hadd & Hremove & _).
  split; [reflexivity |]. split.
  - apply Hadd. simpl. intros H.
    apply elem_of_cons in H as [H | H]; [discriminate |].
    apply list_elem_of_singleton in H. discriminate.
  - apply Hremove.
Defined.

(** ** Drag-spawn state *)

Lemma updateDragSpawn_keeps_gesture x y s :
  DragSpawnState.isDragging (dragSpawn (updateDragSpawn x y s))
  = DragSpawnState.isDragging (dragSpawn s)
  /\ DragSpawnState.sourceNodeId (dragSpawn (updateDragSpawn x y s))
     = DragSpawnState.sourceNodeId (dragSpawn s)
  /\ nodes (updateDragSpawn x y s) = nodes s
  /\ edges (updateDragSpawn x y s) = edges s.
Proof. unfold updateDragSpawn. simpl. auto. Qed.

(** X9.  Without an active gesture [endDragSpawn] returns [null] and
    leaves the state exactly as it is; so it does after [cancelDragSpawn],
    whatever [updateDragSpawn] calls follow the cancellation, and none of
    these calls touches the graph. *)
Theorem endDragSpawn_needs_an_active_gesture (s : IdeaState)
  (updates : list (R * R)) :
  (DragSpawnState.isDragging (dragSpawn s) = false ->
   endDragSpawn s = (None, s))
  /\ (let s' := foldl (fun s p => updateDragSpawn (fst p) (snd p) s)
                      (cancelDragSpawn s) updates in
      endDragSpawn s' = (None, s')
      /\ nodes s' = nodes s /\ edges s' = edges s).
Proof.
  split.
  - intros Hd. unfold endDragSpawn. rewrite Hd. reflexivity.
  - simpl.
    assert (H : forall s0,
              DragSpawnState.isDragging (dragSpawn s0) = false ->
              let s' := foldl (fun s p => updateDragSpawn (fst p) (snd p) s)
                              s0 updates in
              DragSpawnState.isDragging (dragSpawn s') = false
              /\ nodes s' = nodes s0 /\ edges s' = edges s0).
    { induction updates as [| p updates IH]; intros s0 H0; simpl.
      - auto.
      - destruct (updateDragSpawn_keeps_gesture (fst p) (snd p) s0)
          as (Hd & _ & Hn & He).
        destruct (IH (updateDragSpawn (fst p) (snd p) s0)) as (H1 & H2 & H3).
        + rewrite Hd. exact H0.
        + rewrite H2, H3, Hn, He. auto. }
    destruct (H (cancelDragSpawn s) eq_refl) as (Hd & Hn & He).
    split; [| split; assumption].
    unfold endDragSpawn. rewrite Hd. reflexivity.
Qed.

(** X10.  [initializeWithRoot] acts on an empty node list only: there it
    creates exactly one node, flowering, of radius 45, at the center of the
    canvas, and empties the edge list; a store that has a node is left
    untouched, so a second call never adds a second root. *)
Theorem initializeWithRoot_only_once (env env' : Env) (s : IdeaState) :
  (nodes s <> [] -> initializeWithRoot env s = s)
  /\ (nodes s = [] ->
      exists root,
        nodes (initializeWithRoot env s) = [root]
        /\ IdeaNode.id root = generateId env
        /\ IdeaNode.status root = FLOWERING
        /\ IdeaNode.radius root = 45
        /\ IdeaNode.x root = canvasWidth s / 2
        /\ IdeaNode.y root = canvasHeight s / 2
        /\ IdeaNode.parentId root = None
        /\ edges (initializeWithRoot env s) = [])
  /\ initializeWithRoot env' (initializeWithRoot env s)
     = initializeWithRoot env s.
Proof.
  unfold initializeWithRoot. destruct (nodes s) as [| n l] eqn:Hn.
  - split; [intros H; contradiction |].
    split; [| reflexivity].
    intros _. eexists. simpl. repeat split; reflexivity.
  - split; [reflexivity |]. split; [discriminate |].
    rewrite Hn. reflexivity.
Qed.

(** ** The engine *)

Lemma inserts_lookup_inv old (nodes : list IdeaNode.t)
  (m : gmap string PhysicsNode.t) i p :
  foldl (fun m node => <[IdeaNode.id node := reconcileObject old node]> m)
        m nodes !! i = Some p ->
  (exists node, node ∈ nodes /\ IdeaNode.id node = i
                /\ p = reconcileObject old node)
  \/ m !! i = Some p.
Proof.
  revert m. induction nodes as [| n nodes IH]; intros m H; simpl in H.
  - right. exact H.
  - destruct (IH _ H) as [(node & Hin & Hid & Hp) | Hm].
    + left. exists node. split; [now right | auto].
    + destruct (decide (IdeaNode.id n = i)) as [Heq | Hne].
      * rewrite <- Heq, lookup_insert_eq in Hm. injection Hm as <-.
        left. exists n. split; [now left | auto].
      * rewrite lookup_insert_ne in Hm by exact Hne. now right.
Qed.

Lemma reconcileObject_id old node :
  (forall i n, old !! i = Some n -> PhysicsNode.id n = i) ->
  PhysicsNode.id (reconcileObject old node) = IdeaNode.id node.
Proof.
  intros Hold. unfold reconcileObject.
  destruct (old !! IdeaNode.id node) as [ex |] eqn:Hex; simpl.
  - now apply Hold.
  - reflexivity.
Qed.

Lemma alter_all_lookup (move : PhysicsNode.t -> PhysicsNode.t) ids
  (m : gmap string PhysicsNode.t) j :
  exists k, foldl (fun m i => alter move i m) m ids !! j
            = Nat.iter k move <$> m !! j.
Proof.
  revert m. induction ids as [| i ids IH]; intros m; simpl.
  - exists 0%nat. simpl. destruct (m !! j); reflexivity.
  - destruct (IH (alter move i m)) as [k Hk]. rewrite Hk.
    destruct (decide (i = j)) as [-> | Hne].
    + exists (S k). rewrite lookup_alter_eq.
      destruct (m !! j); simpl; [| reflexivity].
      f_equal. clear. induction k as [| k IHk]; simpl; congruence.
    + exists k. rewrite lookup_alter_ne by exact Hne. reflexivity.
Qed.

Lemma integrate_iter_id f k n :
  PhysicsNode.id (Nat.iter k (fun n => integrate (f n) n) n)
  = PhysicsNode.id n.
Proof. induction k as [| k IH]; simpl; [reflexivity | exact IH]. Qed.

Lemma wellFormed_stop e : wellFormed e -> wellFormed (stop e).
Proof.
  intros [Hid Hdom]. unfold stop.
  destruct (simulationRef e) as [sim |] eqn:Hsim.
  - split; simpl; assumption.
  - split; [assumption |]. rewrite Hsim. exact Hdom.
Qed.

Lemma wellFormed_reheat e : wellFormed e -> wellFormed (reheat e).
Proof.
  intros [Hid Hdom]. unfold reheat.
  destruct (simulationRef e) as [sim |] eqn:Hsim.
  - destruct (isRunningRef e); split; simpl; assumption.
  - split; [assumption |]. rewrite Hsim. exact Hdom.
Qed.

Lemma wellFormed_resume enabled e :
  wellFormed e -> wellFormed (resume enabled e).
Proof.
  intros [Hid Hdom]. unfold resume.
  destruct (simulationRef e) as [sim |] eqn:Hsim.
  - destruct enabled.
    + split; simpl; assumption.
    + split; [assumption |]. rewrite Hsim. exact Hdom.
  - split; [assumption |]. rewrite Hsim. exact Hdom.
Qed.

(** Writing an object with the same id over the one at [nodeId] keeps the
    engine well formed. *)
Lemma wellFormed_overwrite e sim nodeId node node' :
  wellFormed e ->
  simulationRef e = Some sim ->
  nodesRef e !! nodeId = Some node ->
  PhysicsNode.id node' = PhysicsNode.id node ->
  wellFormed (set_nodesRef (<[nodeId := node']> (nodesRef e)) e).
Proof.
  intros [Hid Hdom] Hsim Hnode Hsame. rewrite Hsim in Hdom.
  split; simpl.
  - intros i n Hi. destruct (decide (nodeId = i)) as [-> | Hne].
    + rewrite lookup_insert_eq in Hi. injection Hi as <-.
      rewrite Hsame. now apply Hid.
    + rewrite lookup_insert_ne in Hi by exact Hne. now apply Hid.
  - rewrite Hsim. intros i. rewrite Hdom, lookup_insert_is_Some.
    split; [intros H; destruct (decide (nodeId = i)); auto |].
    intros [<- | [_ H]]; [rewrite Hnode; eauto | exact H].
Qed.

Lemma wellFormed_setNodePosition nodeId x y e :
  wellFormed e -> wellFormed (setNodePosition nodeId x y e).
Proof.
  intros Hwf. unfold setNodePosition.
  destruct (nodesRef e !! nodeId) as [node |] eqn:Hnode; [| exact Hwf].
  destruct (simulationRef e) as [sim |] eqn:Hsim; [| exact Hwf].
  eapply wellFormed_overwrite; eauto.
Qed.

Lemma wellFormed_setNodeVelocity nodeId vx vy e :
  wellFormed e -> wellFormed (setNodeVelocity nodeId vx vy e).
Proof.
  intros Hwf. unfold setNodeVelocity.
  destruct (nodesRef e !! nodeId) as [node |] eqn:Hnode; [| exact Hwf].
  destruct (simulationRef e) as [sim |] eqn:Hsim; [| exact Hwf].
  apply wellFormed_reheat. eapply wellFormed_overwrite; eauto.
Qed.

Lemma wellFormed_tick pairForces e :
  wellFormed e -> wellFormed (tick pairForces e).
Proof.
  intros [Hid Hdom]. unfold tick.
  destruct (simulationRef e) as [sim |] eqn:Hsim.
  - set (move := fun n => integrate _ n). split; simpl.
    + intros i n Hi.
      destruct (alter_all_lookup move (Simulation.nodes sim) (nodesRef e) i)
        as [k Hk].
      rewrite Hk in Hi. apply fmap_Some in Hi as (n0 & Hn0 & ->).
      subst move. rewrite integrate_iter_id. now apply Hid.
    + intros i. rewrite Hdom.
      destruct (alter_all_lookup move (Simulation.nodes sim) (nodesRef e) i)
        as [k Hk].
      rewrite Hk, fmap_is_Some. reflexivity.
  - split; [assumption |]. rewrite Hsim. exact Hdom.
Qed.

Lemma wellFormed_call pairForces e c :
  wellFormed e -> wellFormed (call pairForces e c).
Proof.
  intros Hwf. destruct c; simpl.
  - now apply wellFormed_tick.
  - now apply wellFormed_setNodePosition.
  - now apply wellFormed_setNodeVelocity.
  - now apply wellFormed_reheat.
  - now apply wellFormed_stop.
  - now apply wellFormed_resume.
Qed.

Lemma wellFormed_effect props e e1 :
  wellFormed e -> effect props e = Some e1 -> wellFormed e1.
Proof.
  intros Hwf He1. destruct (Props.enabled props) eqn:Hen.
  - rewrite effect_enabled in He1 by exact Hen. injection He1 as <-.
    destruct Hwf as [Hid _]. split; simpl.
    + intros i n Hi. unfold reconcileNodes in Hi.
      rewrite reconcile_fold in Hi. simpl in Hi.
      apply inserts_lookup_inv in Hi as [(node & _ & <- & ->) | Hi].
      * now apply reconcileObject_id.
      * rewrite lookup_empty in Hi. discriminate.
    + intros i. symmetry. apply reconcile_domain.
  - unfold effect in He1. rewrite Hen in He1. simpl in He1.
    injection He1 as <-. now apply wellFormed_stop.
Qed.

Lemma wellFormed_empty : wellFormed emptyEngine.
Proof.
  split; simpl.
  - intros i n Hi. rewrite lookup_empty in Hi. discriminate.
  - reflexivity.
Qed.

(** X11.  Whatever renders and calls an engine has been through, its store
    of objects and its simulation agree: every object sits under its own
    id, and the ids of the simulation's nodes are exactly the keys of the
    store. *)
Theorem reachable_engines_are_well_formed pairForces (e : Engine) :
  reachable pairForces e -> wellFormed e.
Proof.
  induction 1 as [| props e e1 _ IH Hrun | e c _ IH].
  - apply wellFormed_empty.
  - unfold rerun, cleanup in Hrun.
    eapply wellFormed_effect; [| exact Hrun]. now apply wellFormed_stop.
  - now apply wellFormed_call.
Qed.

Lemma reachable_engines_are_well_formed_witness :
  exists e1,
    rerun (sampleProps [seedNode; fruitNode]
             [IdeaEdge.mk "edge_1" "node_a" "node_b" DERIVE]) emptyEngine
    = Some e1
    /\ Simulation.nodes <$> simulationRef e1
       = Some ["node_a"; "node_b"]%string
    /\ wellFormed
         (call noPairForces
            (call noPairForces e1 (SetNodePosition "node_a" 1 1)) Tick).
Proof.
  pose proof (effect_enabled
                (sampleProps [seedNode; fruitNode]
                   [IdeaEdge.mk "edge_1" "node_a" "node_b" DERIVE])
                (cleanup emptyEngine) eq_refl) as He.
  eexists. split; [exact He |]. split; [reflexivity |].
  apply (reachable_engines_are_well_formed noPairForces).
  apply reach_call. apply reach_call.
  eapply reach_rerun; [apply reach_start | exact He].
Defined.

(** X12.  [setNodePosition] and [setNodeVelocity] do nothing at all when
    the id has no object or the simulation does not exist yet.  Otherwise
    they write that one object: every other object, and for
    [setNodePosition] the simulation and the running flag too, stay as they
    were; [setNodeVelocity] keeps the object's position and lock, sets its
    velocity and resets [alpha] to its start value. *)
Theorem node_setters_write_one_object (nodeId : string) (a b : R)
  (e : Engine) :
  (nodesRef e !! nodeId = None \/ simulationRef e = None ->
   setNodePosition nodeId a b e = e /\ setNodeVelocity nodeId a b e = e)
  /\ (forall j, j <> nodeId ->
        nodesRef (setNodePosition nodeId a b e) !! j = nodesRef e !! j
        /\ nodesRef (setNodeVelocity nodeId a b e) !! j = nodesRef e !! j)
  /\ simulationRef (setNodePosition nodeId a b e) = simulationRef e
  /\ isRunningRef (setNodePosition nodeId a b e) = isRunningRef e
  /\ (forall p sim,
        nodesRef e !! nodeId = Some p ->
        simulationRef e = Some sim ->
        nodesRef (setNodeVelocity nodeId a b e) !! nodeId
        = Some (PhysicsNode.mk (PhysicsNode.id p) (PhysicsNode.x p)
                  (PhysicsNode.y p) a b (PhysicsNode.radius p)
                  (PhysicsNode.fx p) (PhysicsNode.fy p))
        /\ Simulation.alpha <$> simulationRef (setNodeVelocity nodeId a b e)
           = Some PHYSICS_CONFIG.alpha.start
        /\ isRunningRef (setNodeVelocity nodeId a b e) = true).
Proof.
  unfold setNodePosition, setNodeVelocity, reheat.
  destruct (nodesRef e !! nodeId) as [node |] eqn:Hnode;
    destruct (simulationRef e) as [sim |] eqn:Hsim; simpl.
  - split; [intros [H | H]; discriminate |].
    split.
    { intros j Hj. rewrite Hsim. simpl.
      destruct (isRunningRef e); simpl; split;
        rewrite lookup_insert_ne by congruence; reflexivity. }
    rewrite Hsim. simpl.
    split; [reflexivity |]. split; [reflexivity |].
    intros p sim0 Hp _. injection Hp as <-.
    destruct (isRunningRef e); simpl; rewrite lookup_insert_eq; auto.
  - split; [auto |]. split; [auto |]. split; [auto |]. split; [auto |].
    intros p sim0 _ H. discriminate.
  - split; [auto |]. split; [auto |]. split; [auto |]. split; [auto |].
    intros p sim0 H. discriminate.
  - split; [auto |]. split; [auto |]. split; [auto |]. split; [auto |].
    intros p sim0 H. discriminate.
Qed.

(** X13.  On an engine with a simulation: [pause] stops the timer and
    clears the running flag, and pausing twice is pausing once; after a
    pause, [reheat] brings the engine back to running with [alpha] at its
    start value and [resume] does so with [alpha] as it was, both with the
    same nodes, links and objects, while [resume] of a disabled hook leaves
    the engine paused.  [reheat] restarts the timer only when the running
    flag is off: with the flag on, the timer is left as it is. *)
Theorem pause_resume_reheat (e : Engine) (sim : Simulation.t) :
  simulationRef e = Some sim ->
  pause e = mkEngine (Some (Simulation.stop sim)) (nodesRef e) false
  /\ pause (pause e) = pause e
  /\ reheat (pause e)
     = mkEngine (Some (Simulation.mk (Simulation.nodes sim)
                         (Simulation.links sim) (Simulation.center sim)
                         PHYSICS_CONFIG.alpha.start true))
                (nodesRef e) true
  /\ resume true (pause e)
     = mkEngine (Some (Simulation.restart sim)) (nodesRef e) true
  /\ resume false (pause e) = pause e
  /\ (isRunningRef e = true ->
      Simulation.timer <$> simulationRef (reheat e)
      = Some (Simulation.timer sim)).
Proof.
  intros Hsim. unfold pause.
  assert (Hp : stop e = mkEngine (Some (Simulation.stop sim)) (nodesRef e) false)
    by (unfold stop; rewrite Hsim; reflexivity).
  split; [exact Hp |].
  split; [apply stop_idempotent |].
  rewrite Hp. unfold reheat, resume. simpl.
  repeat split; try reflexivity.
  intros Hrun. rewrite Hsim, Hrun. reflexivity.
Qed.

Lemma pause_resume_reheat_witness :
  Simulation.timer <$> simulationRef (reheat (pause driftedEngine)) = Some true
  /\ isRunningRef (reheat (pause driftedEngine)) = true.
Proof.
  destruct (pause_resume_reheat driftedEngine
              (Simulation.mk ["node_a"%string] [] (400, 300) 1 true) eq_refl)
    as (_ & _ & Hre & _).
  rewrite Hre. split; reflexivity.
Defined.

(** ** Gestures on the canvas and on a node *)

Lemma positionUpdate_merge node a b :
  IdeaNode.id (mergeNode node (positionUpdate a b)) = IdeaNode.id node
  /\ IdeaNode.x (mergeNode node (positionUpdate a b)) = a
  /\ IdeaNode.y (mergeNode node (positionUpdate a b)) = b
  /\ IdeaNode.status (mergeNode node (positionUpdate a b)) = IdeaNode.status node
  /\ IdeaNode.radius (mergeNode node (positionUpdate a b)) = IdeaNode.radius node.
Proof. unfold mergeNode, positionUpdate. simpl. auto. Qed.

Lemma render_enabled c :
  render c =
    Some (mkCanvas (store c)
            (mkEngine
               (Some (Simulation.mk
                        (map IdeaNode.id (nodes (store c)))
                        (physicsEdgesOf
                           (fst (reconcileNodes (nodesRef (physics c))
                                                (nodes (store c))))
                           (edges (store c)))
                        (canvasWidth (store c) / 2, canvasHeight (store c) / 2)
                        PHYSICS_CONFIG.alpha.start true))
               (fst (reconcileNodes (nodesRef (physics c)) (nodes (store c))))
               true)
            (isPanning c) (lastPanPoint c) (isSpacePressed c)).
Proof.
  unfold render, rerun, cleanup.
  rewrite effect_enabled by reflexivity.
  rewrite stop_timer, stop_nodesRef. reflexivity.
Qed.

(** X14.  A drag move of a node writes the new position to both sides at
    once: every canonical node with that id is at the new position, the
    other canonical nodes are as they were, and the node's physics object,
    when there is one, is at the new position with zero velocity.  The
    render that follows (distinct ids) leaves the object at that position
    and at rest. *)
Theorem drag_move_keeps_store_and_engine_together (nodeId : string)
  (a b : R) (c : Canvas) :
  let c' := handleNodeDragMove nodeId a b c in
  (forall node', node' ∈ nodes (store c') -> IdeaNode.id node' = nodeId ->
     IdeaNode.x node' = a /\ IdeaNode.y node' = b)
  /\ (forall k node, nodes (store c) !! k = Some node ->
        IdeaNode.id node <> nodeId -> nodes (store c') !! k = Some node)
  /\ (forall p sim,
        nodesRef (physics c) !! nodeId = Some p ->
        simulationRef (physics c) = Some sim ->
        exists p',
          nodesRef (physics c') !! nodeId = Some p'
          /\ PhysicsNode.x p' = a /\ PhysicsNode.y p' = b
          /\ PhysicsNode.vx p' = 0 /\ PhysicsNode.vy p' = 0)
  /\ (forall node p sim,
        NoDup (map IdeaNode.id (nodes (store c))) ->
        node ∈ nodes (store c) -> IdeaNode.id node = nodeId ->
        nodesRef (physics c) !! nodeId = Some p ->
        simulationRef (physics c) = Some sim ->
        exists c2 p2,
          render c' = Some c2
          /\ nodesRef (physics c2) !! nodeId = Some p2
          /\ PhysicsNode.x p2 = a /\ PhysicsNode.y p2 = b
          /\ PhysicsNode.vx p2 = 0 /\ PhysicsNode.vy p2 = 0).
Proof.
  simpl. split; [| split; [| split]].
  - intros node' Hin Hid. unfold updateNode in Hin. simpl in Hin.
    apply list_elem_of_fmap in Hin as (node & -> & _).
    destruct (decide (IdeaNode.id node = nodeId)) as [He | Hne].
    + split; apply positionUpdate_merge.
    + contradiction.
  - intros k node Hk Hne. unfold updateNode. simpl.
    rewrite list_lookup_fmap, Hk. simpl.
    destruct (decide (IdeaNode.id node = nodeId)); [contradiction | reflexivity].
  - intros p sim Hp Hsim. eexists.
    split; [eapply setNodePosition_writes; eassumption |].
    simpl. auto.
  - intros node p sim Hnd Hin Hid Hp Hsim.
    set (node' := mergeNode node (positionUpdate a b)).
    destruct (positionUpdate_merge node a b) as (Hid' & Hx' & Hy' & _).
    eexists. eexists. split; [apply render_enabled |]. simpl.
    assert (Hin' : node' ∈ nodes (updateNode nodeId (positionUpdate a b) (store c))).
    { unfold updateNode. simpl. apply list_elem_of_fmap. exists node.
      split; [| exact Hin].
      destruct (decide (IdeaNode.id node = nodeId)); [reflexivity | contradiction]. }
    assert (Hnd' : NoDup (map IdeaNode.id
                      (nodes (updateNode nodeId (positionUpdate a b) (store c))))).
    { unfold updateNode. simpl. rewrite map_ids_merge by reflexivity.
      exact Hnd. }
    pose proof (reconcile_present
                  (nodesRef (setNodePosition nodeId a b (physics c)))
                  _ node' Hnd' Hin') as Hlook.
    fold node' in Hid'. rewrite Hid', Hid in Hlook.
    split; [exact Hlook |].
    unfold reconcileObject. rewrite Hid', Hid.
    rewrite (setNodePosition_writes nodeId a b (physics c) sim p Hsim Hp).
    simpl. fold node'. auto.
Qed.

(** The canvas while a pan from [p0] is under way. *)
Lemma panning_moves (c0 : Canvas) (p0 : R * R) (moves : list (R * R))
  (c1 : Canvas) :
  isPanning c1 = true ->
  lastPanPoint c1 = p0 ->
  let c2 := pointerMoves moves c1 in
  let pn := default p0 (last moves) in
  isPanning c2 = true
  /\ lastPanPoint c2 = pn
  /\ CameraState.offsetX (camera (store c2))
     = CameraState.offsetX (camera (store c1)) + (fst pn - fst p0)
  /\ CameraState.offsetY (camera (store c2))
     = CameraState.offsetY (camera (store c1)) + (snd pn - snd p0)
  /\ CameraState.scale (camera (store c2)) = CameraState.scale (camera (store c1))
  /\ dragSpawn (store c2) = dragSpawn (store c1)
  /\ nodes (store c2) = nodes (store c1)
  /\ edges (store c2) = edges (store c1)
  /\ physics c2 = physics c1.
Proof.
  intros Hpan Hlast. simpl.
  induction moves as [| pos moves IH] using rev_ind.
  - simpl. repeat split; try assumption; try reflexivity; lra.
  - unfold pointerMoves in *. rewrite foldl_app, last_snoc.
    destruct IH as (Hp & Hl & Hx & Hy & Hs & Hd & Hn & He & Hph).
    set (cm := foldl (fun c pos => handleMouseMove pos c) c1 moves) in *.
    cbn [foldl default]. unfold handleMouseMove. rewrite Hp. simpl.
    rewrite Hl, Hx, Hy, Hs, Hd, Hn, He, Hph.
    repeat split; try reflexivity; lra.
Qed.

(** X15.  A pan gesture (pointer-down with the space key held or with the
    middle button, then any pointer moves) has moved the camera offset by
    exactly the displacement of the pointer since the pointer-down; the
    scale, the graph and also an active spawn state are not touched by the
    moves, and the pointer-up only ends the pan, whatever spawn state there
    is. *)
Theorem pan_gesture_follows_the_pointer (envNode envEdge : Env) (button : Z)
  (p0 : R * R) (moves : list (R * R)) (c0 : Canvas) :
  isSpacePressed c0 = true \/ button = 1%Z ->
  let c2 := pointerMoves moves (handleMouseDown button p0 c0) in
  let pn := default p0 (last moves) in
  let c3 := handleMouseUp envNode envEdge c2 in
  CameraState.offsetX (camera (store c2))
  = CameraState.offsetX (camera (store c0)) + (fst pn - fst p0)
  /\ CameraState.offsetY (camera (store c2))
     = CameraState.offsetY (camera (store c0)) + (snd pn - snd p0)
  /\ CameraState.scale (camera (store c2)) = CameraState.scale (camera (store c0))
  /\ dragSpawn (store c2) = dragSpawn (store c0)
  /\ nodes (store c2) = nodes (store c0)
  /\ edges (store c2) = edges (store c0)
  /\ isPanning c2 = true
  /\ isPanning c3 = false
  /\ store c3 = store c2
  /\ physics c3 = physics c0.
Proof.
  intros Hstart.
  assert (Hdown : handleMouseDown button p0 c0
                  = mkCanvas (store c0) (physics c0) true p0 (isSpacePressed c0)).
  { unfold handleMouseDown. destruct Hstart as [-> | ->].
    - reflexivity.
    - rewrite orb_true_r. reflexivity. }
  rewrite Hdown. simpl.
  destruct (panning_moves c0 p0 moves
              (mkCanvas (store c0) (physics c0) true p0 (isSpacePressed c0))
              eq_refl eq_refl)
    as (Hp & Hl & Hx & Hy & Hs & Hd & Hn & He & Hph).
  simpl in *. unfold handleMouseUp. rewrite Hp. simpl.
  repeat split; assumption.
Qed.

Lemma pan_gesture_follows_the_pointer_witness :
  let c0 := mkCanvas (initialState 800 600) emptyEngine false (0, 0) true in
  let c2 := pointerMoves [(12, 7); (30, 40)] (handleMouseDown 0 (10, 10) c0) in
  CameraState.offsetX (camera (store c2)) = 0 + (30 - 10).
Proof.
  intros c0 c2.
  assert (H : isSpacePressed c0 = true \/ 0%Z = 1%Z) by (left; reflexivity).
  exact (proj1 (pan_gesture_follows_the_pointer sampleEnv sampleEnv 0 (10, 10)
                  [(12, 7); (30, 40)] c0 H)).
Defined.




(** X17.  A drag move reaches the canvas only after a press in the node's
    interior: while the drag flag is off it is ignored, so a press in the
    edge band, which starts a spawn, never drags the node.  After an
    interior press the move is forwarded with the new position, the
    recorded velocity is the displacement since the last position, and the
    drag end clears the flag and reheats the engine. *)
Theorem node_drag_needs_an_interior_press (node : IdeaNode.t)
  (pos newPos : R * R) (v : NodeView.t) (c : Canvas) :
  (NodeView.isDragging v = false ->
   nodeDragMove node newPos (v, c) = (v, c))
  /\ (NodeView.isDragging v = false ->
      checkEdgeHover node (Some pos) = true ->
      nodeDragMove node newPos (nodeMouseDown node 0 (Some pos) (v, c))
      = nodeMouseDown node 0 (Some pos) (v, c))
  /\ (checkEdgeHover node (Some pos) = false ->
      let vc2 := nodeDragMove node newPos
                   (nodeMouseDown node 0 (Some pos) (v, c)) in
      let vc3 := nodeDragEnd vc2 in
      snd vc2 = handleNodeDragMove (IdeaNode.id node) (fst newPos) (snd newPos)
                  (handleNodeDragStart (IdeaNode.id node) c)
      /\ NodeView.velocity (fst vc2)
         = (fst newPos - IdeaNode.x node, snd newPos - IdeaNode.y node)
      /\ NodeView.isDragging (fst vc3) = false
      /\ store (snd vc3) = store (snd vc2)
      /\ physics (snd vc3) = reheat (physics (snd vc2))).
Proof.
  split; [| split].
  - intros Hv. unfold nodeDragMove. simpl. rewrite Hv. reflexivity.
  - intros Hv Hedge.
    assert (Hdown : exists c', nodeMouseDown node 0 (Some pos) (v, c) = (v, c')).
    { unfold nodeMouseDown. cbn [fst snd]. rewrite Hedge.
      rewrite bool_decide_eq_true_2 by reflexivity. cbn [calculateSpawnPoint].
      eauto. }
    destruct Hdown as [c' ->].
    unfold nodeDragMove. simpl. rewrite Hv. reflexivity.
  - intros Hedge.
    assert (Hdown : nodeMouseDown node 0 (Some pos) (v, c)
                    = (NodeView.mk true (NodeView.isHoveringEdge v)
                         (NodeView.spawnPoint v)
                         (IdeaNode.x node, IdeaNode.y node) (0, 0),
                       handleNodeDragStart (IdeaNode.id node) c)).
    { unfold nodeMouseDown. cbn [fst snd]. rewrite Hedge. reflexivity. }
    rewrite Hdown. unfold nodeDragMove, nodeDragEnd. simpl.
    repeat split; reflexivity.
Qed.

Lemma statusUpdate_merge node status :
  IdeaNode.id (mergeNode node (statusUpdate status)) = IdeaNode.id node
  /\ IdeaNode.x (mergeNode node (statusUpdate status)) = IdeaNode.x node
  /\ IdeaNode.y (mergeNode node (statusUpdate status)) = IdeaNode.y node
  /\ IdeaNode.status (mergeNode node (statusUpdate status)) = status.
Proof. unfold mergeNode, statusUpdate. simpl. auto. Qed.

(** X18.  The toolbar's status switch for the selected node takes effect in
    the engine at the next render: switched to 'fruit', the node's object
    is locked at the node's canonical position; switched to any other
    status, its lock is cleared.  Either way the object is at the canonical
    position. *)
Theorem status_switch_sets_the_lock (status : NodeStatus) (node : IdeaNode.t)
  (c : Canvas) :
  NoDup (map IdeaNode.id (nodes (store c))) ->
  node ∈ nodes (store c) ->
  selectedNodeId (store c) = Some (IdeaNode.id node) ->
  IdeaNode.id node <> EmptyString ->
  let c' := mkCanvas (handleStatusChange status (store c)) (physics c)
                     (isPanning c) (lastPanPoint c) (isSpacePressed c) in
  exists c2 p,
    render c' = Some c2
    /\ nodesRef (physics c2) !! IdeaNode.id node = Some p
    /\ PhysicsNode.x p = IdeaNode.x node
    /\ PhysicsNode.y p = IdeaNode.y node
    /\ (status = FRUIT ->
        PhysicsNode.fx p = Some (IdeaNode.x node)
        /\ PhysicsNode.fy p = Some (IdeaNode.y node))
    /\ (status <> FRUIT ->
        PhysicsNode.fx p = None /\ PhysicsNode.fy p = None).
Proof.
  intros Hnd Hin Hsel Hne. simpl.
  assert (Hs : handleStatusChange status (store c)
               = updateNode (IdeaNode.id node) (statusUpdate status) (store c)).
  { unfold handleStatusChange. rewrite Hsel. simpl.
    destruct (decide (IdeaNode.id node = EmptyString));
      [contradiction | reflexivity]. }
  rewrite Hs.
  set (node' := mergeNode node (statusUpdate status)).
  destruct (statusUpdate_merge node status) as (Hid' & Hx' & Hy' & Hst').
  fold node' in Hid', Hx', Hy', Hst'.
  eexists. eexists. split; [apply render_enabled |]. simpl.
  assert (Hin' : node' ∈ map (fun n =>
                                if decide (IdeaNode.id n = IdeaNode.id node)
                                then mergeNode n (statusUpdate status) else n)
                             (nodes (store c))).
  { apply list_elem_of_fmap. exists node. split; [| exact Hin].
    destruct (decide (IdeaNode.id node = IdeaNode.id node));
      [reflexivity | contradiction]. }
  assert (Hnd' : NoDup (map IdeaNode.id
                          (map (fun n =>
                                  if decide (IdeaNode.id n = IdeaNode.id node)
                                  then mergeNode n (statusUpdate status) else n)
                               (nodes (store c))))).
  { rewrite map_ids_merge by reflexivity. exact Hnd. }
  pose proof (reconcile_present (nodesRef (physics c)) _ node' Hnd' Hin')
    as Hlook.
  rewrite Hid' in Hlook. split; [exact Hlook |].
  unfold reconcileObject, updateExisting, convertToPhysicsNode, fruitLock.
  rewrite Hst', Hx', Hy'.
  destruct (nodesRef (physics c) !! IdeaNode.id node'); simpl;
    (split; [reflexivity |]); (split; [reflexivity |]);
    destruct (decide (status = FRUIT));
    split; intros H; try contradiction; try (split; reflexivity); auto.
Qed.

Lemma status_switch_sets_the_lock_witness :
  let s := mkState [seedNode] [] (CameraState.mk 1 0 0) initialDragSpawn
                   (Some "node_a"%string) None 800 600 in
  let c := mkCanvas s emptyEngine false (0, 0) false in
  let c' := mkCanvas (handleStatusChange FRUIT s) emptyEngine false (0, 0)
                     false in
  exists c2 p,
    render c' = Some c2
    /\ nodesRef (physics c2) !! "node_a"%string = Some p
    /\ PhysicsNode.fx p = Some 0.
Proof.
  intros s c c'.
  destruct (status_switch_sets_the_lock FRUIT seedNode c)
    as (c2 & p & Hr & Hp & _ & _ & Hf & _).
  - exact seedNode_ids_distinct.
  - apply list_elem_of_singleton. reflexivity.
  - reflexivity.
  - discriminate.
  - exists c2, p. split; [exact Hr |]. split; [exact Hp |].
    apply (proj1 (Hf eq_refl)).
Defined.

(** ** Curves *)

Lemma getBezierPoint_at_1 startX startY cp1x cp1y cp2x cp2y endX endY :
  getBezierPoint 1 startX startY cp1x cp1y cp2x cp2y endX endY = (endX, endY).
Proof. unfold getBezierPoint. simpl. f_equal; ring. Qed.

(** X19.  The point of the curve at parameter 0 is the start point and at
    parameter 1 the end point; running the curve backwards (control points
    swapped, parameter [1 - t]) gives the same point; moving all four
    points by a vector moves the point by that vector. *)
Theorem bezier_point_ends_reversal_translation
  (t startX startY cp1x cp1y cp2x cp2y endX endY a b : R) :
  getBezierPoint 0 startX startY cp1x cp1y cp2x cp2y endX endY
  = (startX, startY)
  /\ getBezierPoint 1 startX startY cp1x cp1y cp2x cp2y endX endY
     = (endX, endY)
  /\ getBezierPoint (1 - t) startX startY cp1x cp1y cp2x cp2y endX endY
     = getBezierPoint t endX endY cp2x cp2y cp1x cp1y startX startY
  /\ getBezierPoint t (startX + a) (startY + b) (cp1x + a) (cp1y + b)
       (cp2x + a) (cp2y + b) (endX + a) (endY + b)
     = (fst (getBezierPoint t startX startY cp1x cp1y cp2x cp2y endX endY) + a,
        snd (getBezierPoint t startX startY cp1x cp1y cp2x cp2y endX endY) + b).
Proof.
  unfold getBezierPoint. simpl. repeat split; f_equal; ring.
Qed.

Lemma bernstein_between t lo hi p0 p1 p2 p3 :
  0 <= t <= 1 ->
  lo <= p0 <= hi -> lo <= p1 <= hi -> lo <= p2 <= hi -> lo <= p3 <= hi ->
  lo <= (1 - t) * (1 - t) * (1 - t) * p0
        + 3 * ((1 - t) * (1 - t)) * t * p1
        + 3 * (1 - t) * (t * t) * p2 + t * t * t * p3 <= hi.
Proof.
  intros Ht H0 H1 H2 H3.
  set (u := 1 - t).
  assert (Hu : 0 <= u) by (subst u; lra).
  assert (W0 : 0 <= u * u * u) by (repeat apply Rmult_le_pos; lra).
  assert (W1 : 0 <= 3 * (u * u) * t) by (repeat apply Rmult_le_pos; lra).
  assert (W2 : 0 <= 3 * u * (t * t)) by (repeat apply Rmult_le_pos; lra).
  assert (W3 : 0 <= t * t * t) by (repeat apply Rmult_le_pos; lra).
  assert (Hsum : u * u * u + 3 * (u * u) * t + 3 * u * (t * t) + t * t * t = 1)
    by (subst u; ring).
  assert (A0 : u * u * u * lo <= u * u * u * p0 <= u * u * u * hi)
    by (split; apply Rmult_le_compat_l; lra).
  assert (A1 : 3 * (u * u) * t * lo <= 3 * (u * u) * t * p1
               <= 3 * (u * u) * t * hi)
    by (split; apply Rmult_le_compat_l; lra).
  assert (A2 : 3 * u * (t * t) * lo <= 3 * u * (t * t) * p2
               <= 3 * u * (t * t) * hi)
    by (split; apply Rmult_le_compat_l; lra).
  assert (A3 : t * t * t * lo <= t * t * t * p3 <= t * t * t * hi)
    by (split; apply Rmult_le_compat_l; lra).
  assert (Hlo : (u * u * u + 3 * (u * u) * t + 3 * u * (t * t)
                 + t * t * t) * lo = lo) by (rewrite Hsum; ring).
  assert (Hhi : (u * u * u + 3 * (u * u) * t + 3 * u * (t * t)
                 + t * t * t) * hi = hi) by (rewrite Hsum; ring).
  split; lra.
Qed.

(** X20.  For a parameter between 0 and 1 the point of the curve stays in
    the bounding box of the start point, the two control points and the
    end point. *)
Theorem bezier_point_in_bounding_box
  (t startX startY cp1x cp1y cp2x cp2y endX endY loX hiX loY hiY : R) :
  0 <= t <= 1 ->
  loX <= startX <= hiX -> loX <= cp1x <= hiX ->
  loX <= cp2x <= hiX -> loX <= endX <= hiX ->
  loY <= startY <= hiY -> loY <= cp1y <= hiY ->
  loY <= cp2y <= hiY -> loY <= endY <= hiY ->
  let p := getBezierPoint t startX startY cp1x cp1y cp2x cp2y endX endY in
  loX <= fst p <= hiX /\ loY <= snd p <= hiY.
Proof.
  intros Ht X0 X1 X2 X3 Y0 Y1 Y2 Y3. unfold getBezierPoint. simpl.
  split; apply bernstein_between; assumption.
Qed.

Lemma bezier_point_in_bounding_box_witness :
  let p := getBezierPoint (1 / 2) 0 0 10 20 30 20 40 0 in
  0 <= fst p <= 40 /\ 0 <= snd p <= 20.
Proof.
  intros p.
  apply (bezier_point_in_bounding_box (1 / 2) 0 0 10 20 30 20 40 0 0 40 0 20);
    lra.
Defined.

Lemma segment_nonneg p q : 0 <= segment p q.
Proof. unfold segment. apply sqrt_pos. Qed.

Lemma segment_triangle p q m : segment p q <= segment p m + segment m q.
Proof.
  pose proof (triangle (fst p) (snd p) (fst q) (snd q) (fst m) (snd m)) as H.
  unfold dist_euc, Rsqr in H. unfold segment.
  replace ((fst q - fst p) * (fst q - fst p) + (snd q - snd p) * (snd q - snd p))
    with ((fst p - fst q) * (fst p - fst q) + (snd p - snd q) * (snd p - snd q))
    by ring.
  replace ((fst m - fst p) * (fst m - fst p) + (snd m - snd p) * (snd m - snd p))
    with ((fst p - fst m) * (fst p - fst m) + (snd p - snd m) * (snd p - snd m))
    by ring.
  replace ((fst q - fst m) * (fst q - fst m) + (snd q - snd m) * (snd q - snd m))
    with ((fst m - fst q) * (fst m - fst q) + (snd m - snd q) * (snd m - snd q))
    by ring.
  exact H.
Qed.

Section BezierLength.

Variables startX startY cp1x cp1y cp2x cp2y endX endY segments : R.

Let step :=
  bezierLengthStep startX startY cp1x cp1y cp2x cp2y endX endY segments.

Lemma bezierLength_step_eq acc i :
  step acc i
  = (fst acc
     + segment (snd acc)
         (getBezierPoint (INR i / segments) startX startY cp1x cp1y cp2x cp2y
                         endX endY),
     getBezierPoint (INR i / segments) startX startY cp1x cp1y cp2x cp2y
                    endX endY).
Proof. reflexivity. Qed.

(** The loop never shortens the length, and what it adds is at least the
    distance from the point it started at to the point it ended at. *)
Lemma bezierLength_fold_bound (counters : list nat) acc :
  fst acc + segment (snd acc) (snd (foldl step acc counters))
  <= fst (foldl step acc counters).
Proof.
  revert acc. induction counters as [| i counters IH]; intros acc; simpl.
  - unfold segment.
    replace ((fst (snd acc) - fst (snd acc)) * (fst (snd acc) - fst (snd acc))
             + (snd (snd acc) - snd (snd acc)) * (snd (snd acc) - snd (snd acc)))
      with 0 by ring.
    rewrite sqrt_0. lra.
  - specialize (IH (step acc i)).
    assert (Hf : fst (step acc i)
                 = fst acc
                   + segment (snd acc)
                       (getBezierPoint (INR i / segments) startX startY cp1x
                                       cp1y cp2x cp2y endX endY))
      by reflexivity.
    assert (Hs : snd (step acc i)
                 = getBezierPoint (INR i / segments) startX startY cp1x cp1y
                                  cp2x cp2y endX endY) by reflexivity.
    rewrite Hf, Hs in IH.
    pose proof (segment_triangle (snd acc)
                  (snd (foldl step (step acc i) counters))
                  (getBezierPoint (INR i / segments) startX startY cp1x cp1y
                                  cp2x cp2y endX endY)) as Ht.
    lra.
Qed.

Lemma bezierLength_fold_last (counters : list nat) i acc :
  snd (foldl step acc (counters ++ [i]))
  = getBezierPoint (INR i / segments) startX startY cp1x cp1y cp2x cp2y
                   endX endY.
Proof. rewrite foldl_app. reflexivity. Qed.

End BezierLength.

(** X21.  The approximate length of a curve is never negative, is 0 when
    [segments] is below 1 (the loop does not run), and, for a whole number
    of segments from 1 on (also the default 20), is at least the distance
    between the start point and the end point. *)
Theorem bezier_length_at_least_the_chord
  (startX startY cp1x cp1y cp2x cp2y endX endY : R) (segments : option R) :
  0 <= getBezierLength startX startY cp1x cp1y cp2x cp2y endX endY segments
  /\ (default 20 segments < 1 ->
      getBezierLength startX startY cp1x cp1y cp2x cp2y endX endY segments = 0)
  /\ (forall n, (1 <= n)%nat -> default 20 segments = INR n ->
        segment (startX, startY) (endX, endY)
        <= getBezierLength startX startY cp1x cp1y cp2x cp2y endX endY
                           segments).
Proof.
  unfold getBezierLength.
  set (sg := default 20 segments).
  split; [| split].
  - pose proof (bezierLength_fold_bound startX startY cp1x cp1y cp2x cp2y
                  endX endY sg (seq 1 (Z.to_nat (Js.floor sg)))
                  (0, (startX, startY))) as H.
    simpl fst in H at 1. simpl snd in H at 1.
    pose proof (segment_nonneg (startX, startY)
                  (snd (foldl (bezierLengthStep startX startY cp1x cp1y cp2x
                                 cp2y endX endY sg) (0, (startX, startY))
                          (seq 1 (Z.to_nat (Js.floor sg)))))).
    lra.
  - intros Hlt. destruct (floor_bounds sg) as [H1 H2].
    assert (Hz : (Js.floor sg <= 0)%Z).
    { assert (H : IZR (Js.floor sg) < IZR 1) by lra.
      apply lt_IZR in H. lia. }
    replace (Z.to_nat (Js.floor sg)) with 0%nat by lia. reflexivity.
  - intros n Hn Hsg. rewrite Hsg.
    assert (Hfl : Z.to_nat (Js.floor (INR n)) = n).
    { unfold Js.floor. rewrite Int_part_INR. lia. }
    rewrite Hfl.
    destruct n as [| n]; [lia |].
    rewrite seq_S.
    pose proof (bezierLength_fold_bound startX startY cp1x cp1y cp2x cp2y
                  endX endY (INR (S n)) (seq 1 n ++ [(1 + n)%nat])
                  (0, (startX, startY))) as H.
    rewrite bezierLength_fold_last in H. simpl fst in H at 1.
    simpl snd in H at 1.
    replace (INR (1 + n) / INR (S n)) with 1 in H.
    + rewrite getBezierPoint_at_1 in H. lra.
    + replace (1 + n)%nat with (S n) by lia.
      pose proof (pos_INR n). rewrite S_INR. field. lra.
Qed.

(** X22.  Control points: for coincident end points they are the end points
    themselves, whatever the curvature; for a non-negative curvature (also
    the default) each control point lies within 75 of its end point. *)
Theorem control_points_stay_near_their_ends
  (startX startY endX endY : R) (curvature : option R) :
  calculateBezierControlPoints startX startY startX startY curvature
  = BezierControlPoints.mk startX startY startX startY
  /\ (0 <= default (1 / 2) curvature ->
      let cp := calculateBezierControlPoints startX startY endX endY
                                             curvature in
      dist2 (BezierControlPoints.cp1x cp, BezierControlPoints.cp1y cp)
            (startX, startY) <= 75 * 75
      /\ dist2 (BezierControlPoints.cp2x cp, BezierControlPoints.cp2y cp)
               (endX, endY) <= 75 * 75).
Proof.
  split.
  - unfold calculateBezierControlPoints.
    replace (startX - startX) with 0 by ring.
    replace (startY - startY) with 0 by ring.
    replace (0 * 0 + 0 * 0) with 0 by ring. rewrite sqrt_0.
    replace (0 * default (1 / 2) curvature) with 0 by ring.
    assert (Hmin : Rmin 0 150 = 0) by (apply Rmin_left; lra).
    rewrite Hmin. f_equal; ring.
  - intros Hc. unfold calculateBezierControlPoints, dist2. simpl.
    set (dx := endX - startX). set (dy := endY - startY).
    set (a := Js.atan2 dy dx).
    set (o := Rmin (sqrt (dx * dx + dy * dy) * default (1 / 2) curvature) 150).
    assert (Ho : 0 <= o <= 150).
    { subst o. pose proof (sqrt_pos (dx * dx + dy * dy)) as Hs.
      assert (0 <= sqrt (dx * dx + dy * dy) * default (1 / 2) curvature)
        by (apply Rmult_le_pos; assumption).
      unfold Rmin. destruct (Rle_dec _ _); lra. }
    pose proof (sin2_cos2 a) as Ha. unfold Rsqr in Ha.
    pose proof (sin2_cos2 (a + PI / 4)) as H1. unfold Rsqr in H1.
    pose proof (sin2_cos2 (a - PI / 4)) as H2. unfold Rsqr in H2.
    set (c := cos a) in *. set (s := sin a) in *.
    set (c1 := cos (a + PI / 4)) in *. set (s1 := sin (a + PI / 4)) in *.
    set (c2 := cos (a - PI / 4)) in *. set (s2 := sin (a - PI / 4)) in *.
    assert (Hoo : 0 <= o * o <= 150 * 150) by nra.
    assert (K1 : c * c1 + s * s1 <= 1).
    { pose proof (Rle_0_sqr (c - c1)) as Q1.
      pose proof (Rle_0_sqr (s - s1)) as Q2. unfold Rsqr in Q1, Q2. lra. }
    assert (K2 : -1 <= c * c2 + s * s2).
    { pose proof (Rle_0_sqr (c + c2)) as Q1.
      pose proof (Rle_0_sqr (s + s2)) as Q2. unfold Rsqr in Q1, Q2. lra. }
    assert (K1' : -1 <= c * c1 + s * s1).
    { pose proof (Rle_0_sqr (c + c1)) as Q1.
      pose proof (Rle_0_sqr (s + s1)) as Q2. unfold Rsqr in Q1, Q2. lra. }
    assert (K2' : c * c2 + s * s2 <= 1).
    { pose proof (Rle_0_sqr (c - c2)) as Q1.
      pose proof (Rle_0_sqr (s - s2)) as Q2. unfold Rsqr in Q1, Q2. lra. }
    split.
    + replace ((startX + c * o * (3 / 10) + c1 * o * (2 / 10) - startX)
               * (startX + c * o * (3 / 10) + c1 * o * (2 / 10) - startX)
               + (startY + s * o * (3 / 10) + s1 * o * (2 / 10) - startY)
                 * (startY + s * o * (3 / 10) + s1 * o * (2 / 10) - startY))
        with (o * o * (9 / 100 * (s * s + c * c) + 4 / 100 * (s1 * s1 + c1 * c1)
                       + 12 / 100 * (c * c1 + s * s1))) by field.
      rewrite Ha, H1.
      assert (0 <= 9 / 100 * 1 + 4 / 100 * 1 + 12 / 100 * (c * c1 + s * s1)
              <= 1 / 4) by lra.
      nra.
    + replace ((endX - c * o * (3 / 10) + c2 * o * (2 / 10) - endX)
               * (endX - c * o * (3 / 10) + c2 * o * (2 / 10) - endX)
               + (endY - s * o * (3 / 10) + s2 * o * (2 / 10) - endY)
                 * (endY - s * o * (3 / 10) + s2 * o * (2 / 10) - endY))
        with (o * o * (9 / 100 * (s * s + c * c) + 4 / 100 * (s2 * s2 + c2 * c2)
                       - 12 / 100 * (c * c2 + s * s2))) by field.
      rewrite Ha, H2.
      assert (0 <= 9 / 100 * 1 + 4 / 100 * 1 - 12 / 100 * (c * c2 + s * s2)
              <= 1 / 4) by lra.
      nra.
Qed.

Lemma atan2_origin : Js.atan2 0 0 = 0.
Proof.
  unfold Js.atan2.
  destruct (Rlt_dec 0 0); [lra |]. destruct (Rlt_dec 0 0); [lra |].
  reflexivity.
Qed.

(** X23.  The edge anchor depends on the direction of the target only:
    moving the target along the ray from the center gives the same point.
    With the target at the center it is the point to the right of the
    center, at one radius; with radius 0 it is the center. *)
Theorem edge_point_depends_on_direction_only
  (fromX fromY fromRadius toX toY : R) :
  (forall k, 0 < k -> (toX, toY) <> (fromX, fromY) ->
     getEdgePoint fromX fromY fromRadius
                  (fromX + k * (toX - fromX)) (fromY + k * (toY - fromY))
     = getEdgePoint fromX fromY fromRadius toX toY)
  /\ getEdgePoint fromX fromY fromRadius fromX fromY
     = (fromX + fromRadius, fromY)
  /\ getEdgePoint fromX fromY 0 toX toY = (fromX, fromY).
Proof.
  split; [| split].
  - intros k Hk Hne. unfold getEdgePoint.
    set (dx := toX - fromX). set (dy := toY - fromY).
    assert (Hd : dx <> 0 \/ dy <> 0).
    { destruct (Req_dec dx 0) as [Hx | Hx]; [| left; exact Hx].
      destruct (Req_dec dy 0) as [Hy | Hy]; [| right; exact Hy].
      exfalso. apply Hne. subst dx dy. f_equal; lra. }
    replace (fromX + k * dx - fromX) with (k * dx) by ring.
    replace (fromY + k * dy - fromY) with (k * dy) by ring.
    assert (Hkd : k * dx <> 0 \/ k * dy <> 0).
    { destruct Hd as [H | H]; [left | right]; nra. }
    destruct (cos_sin_atan2 (k * dx) (k * dy) Hkd) as [Hc Hs].
    destruct (cos_sin_atan2 dx dy Hd) as [Hc' Hs'].
    pose proof (hypot_pos dx dy Hd) as Hpos.
    assert (Hsq : sqrt (k * dx * (k * dx) + k * dy * (k * dy))
                  = k * sqrt (dx * dx + dy * dy)).
    { replace (k * dx * (k * dx) + k * dy * (k * dy))
        with (k * k * (dx * dx + dy * dy)) by ring.
      rewrite sqrt_mult by nra. rewrite sqrt_square by lra. reflexivity. }
    rewrite Hc, Hs, Hc', Hs', Hsq. f_equal; field; lra.
  - unfold getEdgePoint.
    replace (fromY - fromY) with 0 by ring.
    replace (fromX - fromX) with 0 by ring.
    rewrite atan2_origin, cos_0, sin_0. f_equal; ring.
  - unfold getEdgePoint. f_equal; ring.
Qed.

(** ** Hex colours *)

Lemma byteReadsBack_all : forallb Colors.byteReadsBack (seq 0 256) = true.
Proof. vm_compute. reflexivity. Qed.

Lemma byteHex_reads_back k :
  (0 <= k <= 255)%Z ->
  exists hi lo,
    Colors.byteHex k = String hi (String lo EmptyString)
    /\ Colors.parseHexPair hi lo = Some k.
Proof.
  intros Hk.
  pose proof (proj1 (forallb_forall _ _) byteReadsBack_all (Z.to_nat k)) as H.
  assert (Hin : In (Z.to_nat k) (seq 0 256)) by (apply in_seq; lia).
  specialize (H Hin). unfold Colors.byteReadsBack in H.
  rewrite Z2Nat.id in H by lia.
  destruct (Colors.byteHex k) as [| hi [| lo [| ? ?]]]; try discriminate.
  destruct (Colors.parseHexPair hi lo) as [k' |] eqn:Hp; [| discriminate].
  apply Z.eqb_eq in H. subst k'. eauto.
Qed.

Lemma channel_range x : (0 <= Colors.channel x <= 255)%Z.
Proof. unfold Colors.channel. lia. Qed.

Lemma channel_IZR k : (0 <= k <= 255)%Z -> Colors.channel (IZR k) = k.
Proof.
  intros Hk. unfold Colors.channel, Colors.round, Js.floor.
  assert (Hr : Int_part (IZR k + 1 / 2) = k).
  { symmetry. apply Int_part_spec. lra. }
  rewrite Hr. lia.
Qed.

Lemma channel_of x k :
  x = IZR k -> (0 <= k <= 255)%Z -> Colors.channel x = k.
Proof. intros -> Hk. now apply channel_IZR. Qed.

Lemma hexDigitValue_range c v :
  Colors.hexDigitValue c = Some v -> (0 <= v <= 15)%Z.
Proof.
  unfold Colors.hexDigitValue.
  set (n := Z.of_nat (Ascii.nat_of_ascii c)).
  destruct ((48 <=? n)%Z && (n <=? 57)%Z) eqn:H1.
  { intros [= <-]. apply andb_true_iff in H1 as [Ha Hb].
    apply Z.leb_le in Ha, Hb. lia. }
  destruct ((97 <=? n)%Z && (n <=? 102)%Z) eqn:H2.
  { intros [= <-]. apply andb_true_iff in H2 as [Ha Hb].
    apply Z.leb_le in Ha, Hb. lia. }
  destruct ((65 <=? n)%Z && (n <=? 70)%Z) eqn:H3.
  { intros [= <-]. apply andb_true_iff in H3 as [Ha Hb].
    apply Z.leb_le in Ha, Hb. lia. }
  discriminate.
Qed.

Lemma parseHexPair_range hi lo k :
  Colors.parseHexPair hi lo = Some k -> (0 <= k <= 255)%Z.
Proof.
  unfold Colors.parseHexPair.
  destruct (Colors.hexDigitValue hi) as [h |] eqn:Hh; [| discriminate].
  destruct (Colors.hexDigitValue lo) as [l |] eqn:Hl; [| discriminate].
  simpl. intros [= <-].
  apply hexDigitValue_range in Hh, Hl. lia.
Qed.

Lemma six_digits_range body rgb :
  match body with
  | String r1 (String r2 (String g1 (String g2 (String b1 (String b2
      EmptyString))))) =>
      r ← Colors.parseHexPair r1 r2;
      g ← Colors.parseHexPair g1 g2;
      b ← Colors.parseHexPair b1 b2;
      Some (Colors.mkRgb r g b)
  | _ => None
  end = Some rgb ->
  (0 <= Colors.r rgb <= 255)%Z /\ (0 <= Colors.g rgb <= 255)%Z
  /\ (0 <= Colors.b rgb <= 255)%Z.
Proof.
  destruct body as [| r1 [| r2 [| g1 [| g2 [| b1 [| b2 [| ? ?]]]]]]];
    try discriminate.
  destruct (Colors.parseHexPair r1 r2) as [r |] eqn:Hr; [| discriminate].
  destruct (Colors.parseHexPair g1 g2) as [g |] eqn:Hg; [| discriminate].
  destruct (Colors.parseHexPair b1 b2) as [b |] eqn:Hb; [| discriminate].
  simpl. intros [= <-]. simpl.
  apply parseHexPair_range in Hr, Hg, Hb. auto.
Qed.

Lemma hexToRgb_range hex rgb :
  Colors.hexToRgb hex = Some rgb ->
  (0 <= Colors.r rgb <= 255)%Z /\ (0 <= Colors.g rgb <= 255)%Z
  /\ (0 <= Colors.b rgb <= 255)%Z.
Proof.
  unfold Colors.hexToRgb. destruct hex as [| c rest].
  - discriminate.
  - destruct (decide (c = Ascii.ascii_of_nat 35)); apply six_digits_range.
Qed.

Lemma hexToRgb_rgbToHex r g b :
  Colors.hexToRgb (Colors.rgbToHex r g b)
  = Some (Colors.mkRgb (Colors.channel r) (Colors.channel g)
                       (Colors.channel b)).
Proof.
  unfold Colors.rgbToHex, Colors.channelHex.
  destruct (byteHex_reads_back _ (channel_range r)) as (r1 & r2 & -> & Hr).
  destruct (byteHex_reads_back _ (channel_range g)) as (g1 & g2 & -> & Hg).
  destruct (byteHex_reads_back _ (channel_range b)) as (b1 & b2 & -> & Hb).
  unfold Colors.hexToRgb. rewrite decide_True by reflexivity.
  cbv [String.append]. rewrite Hr, Hg, Hb. reflexivity.
Qed.

(** X24.  Writing any three channel values as a hex colour and reading the
    colour back gives the three values rounded and clamped to 0..255, so
    integers from 0 to 255 come back unchanged; every colour that
    [hexToRgb] accepts has its channels in 0..255 and survives the trip
    through [rgbToHex]; the leading [#] is optional. *)
Theorem hex_colour_round_trip :
  (forall r g b : R,
     Colors.hexToRgb (Colors.rgbToHex r g b)
     = Some (Colors.mkRgb (Colors.channel r) (Colors.channel g)
                          (Colors.channel b)))
  /\ (forall x, (0 <= Colors.channel x <= 255)%Z)
  /\ (forall k, (0 <= k <= 255)%Z -> Colors.channel (IZR k) = k)
  /\ (forall hex rgb,
        Colors.hexToRgb hex = Some rgb ->
        ((0 <= Colors.r rgb <= 255)%Z /\ (0 <= Colors.g rgb <= 255)%Z
         /\ (0 <= Colors.b rgb <= 255)%Z)
        /\ Colors.hexToRgb
             (Colors.rgbToHex (IZR (Colors.r rgb)) (IZR (Colors.g rgb))
                              (IZR (Colors.b rgb)))
           = Some rgb)
  /\ (forall c rest,
        c <> Ascii.ascii_of_nat 35 ->
        Colors.hexToRgb (String (Ascii.ascii_of_nat 35) (String c rest))
        = Colors.hexToRgb (String c rest)).
Proof.
  split; [exact hexToRgb_rgbToHex |].
  split; [exact channel_range |].
  split; [exact channel_IZR |].
  split.
  - intros hex rgb Hrgb.
    pose proof (hexToRgb_range hex rgb Hrgb) as (Hr & Hg & Hb).
    split; [auto |].
    rewrite hexToRgb_rgbToHex, !channel_IZR by assumption.
    destruct rgb; reflexivity.
  - intros c rest Hc. unfold Colors.hexToRgb.
    rewrite decide_True by reflexivity.
    rewrite decide_False by exact Hc. reflexivity.
Qed.

Lemma clamp255_id v : 0 <= v <= 255 -> Rmax 0 (Rmin 255 v) = v.
Proof.
  intros Hv. unfold Rmax, Rmin.
  destruct (Rle_dec 255 v); destruct (Rle_dec 0 _); lra.
Qed.

Lemma clamp255_low v : v <= 0 -> Rmax 0 (Rmin 255 v) = 0.
Proof.
  intros Hv. unfold Rmax, Rmin.
  destruct (Rle_dec 255 v); destruct (Rle_dec 0 _); lra.
Qed.

Lemma clamp01_low v : v <= 0 -> Rmax 0 (Rmin 1 v) = 0.
Proof.
  intros Hv. unfold Rmax, Rmin.
  destruct (Rle_dec 1 v); destruct (Rle_dec 0 _); lra.
Qed.

Lemma clamp01_high v : 1 <= v -> Rmax 0 (Rmin 1 v) = 1.
Proof.
  intros Hv. unfold Rmax, Rmin.
  destruct (Rle_dec 1 v); destruct (Rle_dec 0 _); lra.
Qed.

Lemma channel_bounds_real k : (0 <= k <= 255)%Z -> 0 <= IZR k <= 255.
Proof. intros [H1 H2]. apply IZR_le in H1, H2. lra. Qed.

(** X25.  [adjustBrightness] and [mixColors] hand back their first argument
    unchanged when a colour does not parse.  On colours that parse,
    adjusting by 0 percent keeps the three channels and adjusting by -100
    percent or less gives black; mixing with a ratio of 0 or less gives the
    channels of the first colour and with a ratio of 1 or more those of the
    second. *)
Theorem brightness_and_mix_at_their_ends (hex color2 : string)
  (percent ratio : R) :
  (Colors.hexToRgb hex = None ->
   Colors.adjustBrightness hex percent = hex
   /\ Colors.mixColors hex color2 ratio = hex)
  /\ (Colors.hexToRgb color2 = None ->
      Colors.mixColors hex color2 ratio = hex)
  /\ (forall rgb,
        Colors.hexToRgb hex = Some rgb ->
        Colors.hexToRgb (Colors.adjustBrightness hex 0) = Some rgb
        /\ (percent <= -100 ->
            Colors.hexToRgb (Colors.adjustBrightness hex percent)
            = Some (Colors.mkRgb 0 0 0)))
  /\ (forall rgb1 rgb2,
        Colors.hexToRgb hex = Some rgb1 ->
        Colors.hexToRgb color2 = Some rgb2 ->
        (ratio <= 0 ->
         Colors.hexToRgb (Colors.mixColors hex color2 ratio) = Some rgb1)
        /\ (1 <= ratio ->
            Colors.hexToRgb (Colors.mixColors hex color2 ratio) = Some rgb2)).
Proof.
  split; [| split; [| split]].
  - intros Hn. unfold Colors.adjustBrightness, Colors.mixColors.
    rewrite Hn. auto.
  - intros Hn. unfold Colors.mixColors. rewrite Hn.
    destruct (Colors.hexToRgb hex); reflexivity.
  - intros rgb Hrgb.
    pose proof (hexToRgb_range hex rgb Hrgb) as (Hr & Hg & Hb).
    pose proof (channel_bounds_real _ Hr) as Hr'.
    pose proof (channel_bounds_real _ Hg) as Hg'.
    pose proof (channel_bounds_real _ Hb) as Hb'.
    unfold Colors.adjustBrightness. rewrite Hrgb. split.
    + rewrite hexToRgb_rgbToHex.
      rewrite (channel_of _ (Colors.r rgb)), (channel_of _ (Colors.g rgb)),
        (channel_of _ (Colors.b rgb));
        try assumption; try (rewrite clamp255_id; lra).
      destruct rgb; reflexivity.
    + intros Hp. rewrite hexToRgb_rgbToHex.
      rewrite (channel_of _ 0%Z), (channel_of _ 0%Z), (channel_of _ 0%Z);
        try lia; try (apply clamp255_low; nra).
      reflexivity.
  - intros rgb1 rgb2 H1 H2.
    pose proof (hexToRgb_range hex rgb1 H1) as (Hr & Hg & Hb).
    pose proof (hexToRgb_range color2 rgb2 H2) as (Hr2 & Hg2 & Hb2).
    unfold Colors.mixColors. rewrite H1, H2. split.
    + intros Hlow. rewrite hexToRgb_rgbToHex, clamp01_low by exact Hlow.
      rewrite (channel_of _ (Colors.r rgb1)), (channel_of _ (Colors.g rgb1)),
        (channel_of _ (Colors.b rgb1)); try assumption; try ring.
      destruct rgb1; reflexivity.
    + intros Hhigh. rewrite hexToRgb_rgbToHex, clamp01_high by exact Hhigh.
      rewrite (channel_of _ (Colors.r rgb2)), (channel_of _ (Colors.g rgb2)),
        (channel_of _ (Colors.b rgb2)); try assumption; try ring.
      destruct rgb2; reflexivity.
Qed.

(** ** Labels *)

(** X26.  [truncateText] returns a text of at most [maxLength] units
    unchanged and cuts a longer one to its first [maxLength] units followed
    by three dots, so the result never has more than [maxLength + 3] units;
    truncating a second time changes nothing. *)
Theorem truncateText_bounded_and_idempotent {A} (dot : A) (text : list A)
  (maxLength : option nat) :
  let m := default 8%nat maxLength in
  ((length text <= m)%nat -> truncateText dot text maxLength = text)
  /\ ((m < length text)%nat ->
      truncateText dot text maxLength = take m text ++ [dot; dot; dot]
      /\ length (truncateText dot text maxLength) = (m + 3)%nat)
  /\ (length (truncateText dot text maxLength) <= m + 3)%nat
  /\ truncateText dot (truncateText dot text maxLength) maxLength
     = truncateText dot text maxLength.
Proof.
  simpl. unfold truncateText. set (m := default 8%nat maxLength).
  destruct (decide (length text <= m)%nat) as [Hle | Hgt].
  - split; [reflexivity |]. split; [lia |]. split; [lia |].
    destruct (decide (length text <= m)%nat); [reflexivity | contradiction].
  - assert (Hlen : length (take m text) = m) by (rewrite length_take; lia).
    split; [lia |].
    split; [intros _; split; [reflexivity | rewrite length_app, Hlen; simpl; lia] |].
    split; [rewrite length_app, Hlen; simpl; lia |].
    destruct (decide (length (take m text ++ [dot; dot; dot]) <= m)%nat)
      as [Hbad | _].
    + rewrite length_app, Hlen in Hbad. simpl in Hbad. lia.
    + rewrite take_app_length' by (symmetry; exact Hlen). reflexivity.
Qed.

(** X27.  The font size of a node's label is always between 10 and 16; it
    is the radius divided by 2.5 for radii from 25 to 40, and it never
    decreases when the radius grows. *)
Theorem getFontSize_between_10_and_16 (node node' : IdeaNode.t) :
  10 <= getFontSize node <= 16
  /\ (25 <= IdeaNode.radius node <= 40 ->
      getFontSize node = IdeaNode.radius node / (25 / 10))
  /\ (IdeaNode.radius node <= IdeaNode.radius node' ->
      getFontSize node <= getFontSize node').
Proof.
  unfold getFontSize, Rmin, Rmax.
  repeat split; intros;
    repeat (destruct (Rle_dec _ _)); lra.
Qed.
